(** * The M2 communication layer of the Onyx dashboard

    A shallow embedding of [contexts/M2.js]: the [M2Provider] component
    (inbound message handler, [send], the freeze gate), the ping/pong
    heartbeat hook [usePingPongState] and the status hook [useStatusState],
    together with the parts of the JavaScript runtime they call
    ([JSON.parse], [JSON.stringify], [EventTarget.dispatchEvent], the
    [CustomEvent] constructor and React's effect closures). *)

From Stdlib Require Import String Ascii List ZArith NArith Lia Bool.
Import ListNotations.

Local Open Scope list_scope.
Local Open Scope string_scope.

(* ================================================================== *)
(** * Part I: definitions                                              *)
(* ================================================================== *)

(** ** Text

    A JavaScript string is modelled by a Rocq [string]: the sequence of
    bytes of its UTF-8 encoding.  Every character that matters to the JSON
    syntax is ASCII, so the byte view and the code-unit view agree on where
    tokens start and end.  An escape [\uXXXX] in a string literal is read
    as the bytes of the code unit it names; a high surrogate followed by
    the escape of a low one is read as the four bytes of the character the
    pair stands for, as the same character written without escapes is. *)

Definition code (c : ascii) : N := N_of_ascii c.

Definition QUOTE : ascii := "034"%char.
Definition BACKSLASH : ascii := "092"%char.

(** [q s] writes a frame with apostrophes where the wire has double quotes,
    which keeps literal frames readable: [q "{'event':'pong'}"]. *)
Fixpoint q (s : string) : string :=
  match s with
  | EmptyString => EmptyString
  | String c s' => String (if Ascii.eqb c "'"%char then QUOTE else c) (q s')
  end.

Definition is_digit (c : ascii) : bool :=
  (48 <=? code c)%N && (code c <=? 57)%N.

(** JSON white space: space, tab, line feed, carriage return. *)
Definition is_ws (c : ascii) : bool :=
  (code c =? 32)%N || (code c =? 9)%N || (code c =? 10)%N || (code c =? 13)%N.

Fixpoint skip_ws (s : string) : string :=
  match s with
  | String c s' => if is_ws c then skip_ws s' else s
  | EmptyString => s
  end.

(** ** JSON values

    The values [JSON.parse] can return.  A number is kept as the literal
    that denotes it: the program never computes with the numbers it
    carries in a payload.  Where a number is turned into a string, as the
    name of an event is, the literal is rounded to the double it denotes
    ([NumberToString] below). *)

#[warnings="-register-all"]
Inductive JSON : Type :=
| JNull
| JBool (b : bool)
| JNumber (literal : string)
| JString (s : string)
| JArray (elements : list JSON)
| JObject (members : list (string * JSON)).

(** *** Number literals

    An optional minus sign; an integer part, which is a single zero or a
    non-zero digit followed by digits; an optional fraction, a point and
    one digit or more; an optional exponent, [e] or [E], an optional sign
    and one digit or more. *)

Fixpoint skip_digits (s : string) : string :=
  match s with
  | String c s' => if is_digit c then skip_digits s' else s
  | EmptyString => s
  end.

(** One digit or more; returns what follows them. *)
Definition digits1 (s : string) : option string :=
  match s with
  | String c s' => if is_digit c then Some (skip_digits s') else None
  | EmptyString => None
  end.

Definition number_sign (s : string) : string :=
  match s with
  | String c s' => if (code c =? 45)%N then s' else s
  | EmptyString => s
  end.

Definition number_int (s : string) : option string :=
  match s with
  | String c s' =>
      if (code c =? 48)%N then Some s'
      else if is_digit c then Some (skip_digits s')
      else None
  | EmptyString => None
  end.

Definition number_frac (s : string) : option string :=
  match s with
  | String c s' => if (code c =? 46)%N then digits1 s' else Some s
  | EmptyString => Some s
  end.

Definition number_exp (s : string) : option string :=
  match s with
  | String c s' =>
      if (code c =? 101)%N || (code c =? 69)%N then
        match s' with
        | String c2 s'' =>
            if (code c2 =? 43)%N || (code c2 =? 45)%N then digits1 s''
            else digits1 s'
        | EmptyString => None
        end
      else Some s
  | EmptyString => Some s
  end.

(** The whole of [s] is one JSON number. *)
Definition is_number_literal (s : string) : bool :=
  match number_int (number_sign s) with
  | Some s1 =>
      match number_frac s1 with
      | Some s2 =>
          match number_exp s2 with
          | Some EmptyString => true
          | _ => false
          end
      | None => false
      end
  | None => false
  end.

(** The characters a number can be made of: digits, [+ - . e E]. *)
Definition is_number_char (c : ascii) : bool :=
  is_digit c || (code c =? 43)%N || (code c =? 45)%N || (code c =? 46)%N
  || (code c =? 101)%N || (code c =? 69)%N.

(** Longest prefix made of number characters, and the rest.  After a
    number only white space, a comma, a closing bracket or a closing brace
    may follow, none of which is a number character: a text is accepted
    exactly when this longest prefix is a number. *)
Fixpoint span_number (s : string) : string * string :=
  match s with
  | String c s' =>
      if is_number_char c then
        let (tok, rest) := span_number s' in (String c tok, rest)
      else (EmptyString, s)
  | EmptyString => (EmptyString, EmptyString)
  end.

Fixpoint all_number_chars (s : string) : bool :=
  match s with
  | EmptyString => true
  | String c s' => is_number_char c && all_number_chars s'
  end.

(** [s] is [s'] after some number characters. *)
Definition eats (s s' : string) : Prop :=
  exists p, s = p ++ s' /\ all_number_chars p = true.

Definition parse_number (s : string) : option (JSON * string) :=
  let (tok, rest) := span_number s in
  if is_number_literal tok then Some (JNumber tok, rest) else None.

(** *** String literals *)

Definition hex_value (c : ascii) : option N :=
  let n := code c in
  if is_digit c then Some (n - 48)%N
  else if (97 <=? n)%N && (n <=? 102)%N then Some (n - 87)%N
  else if (65 <=? n)%N && (n <=? 70)%N then Some (n - 55)%N
  else None.

Definition hex4 (a b c d : ascii) : option N :=
  match hex_value a, hex_value b, hex_value c, hex_value d with
  | Some x, Some y, Some z, Some w => Some (((x * 16 + y) * 16 + z) * 16 + w)%N
  | _, _, _, _ => None
  end.

Definition chr (n : N) : ascii := ascii_of_N n.

(** The bytes that stand for the code unit [u] of a [\uXXXX] escape, or
    for the character [u] of a surrogate pair. *)
Definition utf8 (u : N) (rest : string) : string :=
  if (u <? 128)%N then String (chr u) rest
  else if (u <? 2048)%N then
    String (chr (192 + u / 64)) (String (chr (128 + u mod 64)) rest)
  else if (u <? 65536)%N then
    String (chr (224 + u / 4096))
      (String (chr (128 + (u / 64) mod 64))
         (String (chr (128 + u mod 64)) rest))
  else
    String (chr (240 + u / 262144))
      (String (chr (128 + (u / 4096) mod 64))
         (String (chr (128 + (u / 64) mod 64))
            (String (chr (128 + u mod 64)) rest))).

Definition is_high_surrogate (u : N) : bool :=
  (55296 <=? u)%N && (u <? 56320)%N.

Definition is_low_surrogate (u : N) : bool :=
  (56320 <=? u)%N && (u <? 57344)%N.

(** The low surrogate that the six characters [b e l1 l2 l3 l4] are the
    escape of. *)
Definition low_surrogate (b e l1 l2 l3 l4 : ascii) : option N :=
  if (code b =? 92)%N && (code e =? 117)%N then
    match hex4 l1 l2 l3 l4 with
    | Some v => if is_low_surrogate v then Some v else None
    | None => None
    end
  else None.

(** The character a surrogate pair stands for. *)
Definition character (high low : N) : N :=
  (65536 + (high - 55296) * 1024 + (low - 56320))%N.

(** What the one-letter escape [\e] stands for. *)
Definition simple_escape (e : ascii) : option ascii :=
  let n := code e in
  if (n =? 34)%N then Some QUOTE
  else if (n =? 92)%N then Some BACKSLASH
  else if (n =? 47)%N then Some "/"%char
  else if (n =? 98)%N then Some (chr 8)
  else if (n =? 102)%N then Some (chr 12)
  else if (n =? 110)%N then Some (chr 10)
  else if (n =? 114)%N then Some (chr 13)
  else if (n =? 116)%N then Some (chr 9)
  else None.

(** The characters of a string literal after its opening quote, up to and
    including the closing quote. *)
Fixpoint parse_chars (s : string) : option (string * string) :=
  match s with
  | EmptyString => None
  | String c s' =>
      if (code c =? 34)%N then Some (EmptyString, s')
      else if (code c =? 92)%N then
        match s' with
        | String e s'' =>
            if (code e =? 117)%N then
              match s'' with
              | String h1 (String h2 (String h3 (String h4 s3))) =>
                  match hex4 h1 h2 h3 h4 with
                  | Some u =>
                      let single :=
                        match parse_chars s3 with
                        | Some (str, rest) => Some (utf8 u str, rest)
                        | None => None
                        end in
                      if is_high_surrogate u then
                        match s3 with
                        | String b (String e' (String l1 (String l2
                            (String l3 (String l4 s4))))) =>
                            match low_surrogate b e' l1 l2 l3 l4 with
                            | Some v =>
                                match parse_chars s4 with
                                | Some (str, rest) =>
                                    Some (utf8 (character u v) str, rest)
                                | None => None
                                end
                            | None => single
                            end
                        | _ => single
                        end
                      else single
                  | None => None
                  end
              | _ => None
              end
            else
              match simple_escape e, parse_chars s'' with
              | Some x, Some (str, rest) => Some (String x str, rest)
              | _, _ => None
              end
        | EmptyString => None
        end
      else if (code c <? 32)%N then None
      else
        match parse_chars s' with
        | Some (str, rest) => Some (String c str, rest)
        | None => None
        end
  end.

(** *** Values *)

(** [s] without the leading [word], when it starts with it. *)
Fixpoint strip_prefix (word s : string) : option string :=
  match word with
  | EmptyString => Some s
  | String a word' =>
      match s with
      | String b s' => if Ascii.eqb a b then strip_prefix word' s' else None
      | EmptyString => None
      end
  end.

Definition expect (word : string) (v : JSON) (s : string)
  : option (JSON * string) :=
  match strip_prefix word s with
  | Some rest => Some (v, rest)
  | None => None
  end.

(** [parse_value n s] reads one value at the head of [s] and returns it
    with the text that follows; [n] bounds the number of values read. *)
Fixpoint parse_value (n : nat) (s : string) : option (JSON * string) :=
  match n with
  | O => None
  | S n' =>
      match skip_ws s with
      | EmptyString => None
      | String c s1 =>
          if (code c =? 123)%N then
            match skip_ws s1 with
            | String c' s2 =>
                if (code c' =? 125)%N then Some (JObject [], s2)
                else
                  match parse_members n' s1 with
                  | Some (ms, rest) => Some (JObject ms, rest)
                  | None => None
                  end
            | EmptyString => None
            end
          else if (code c =? 91)%N then
            match skip_ws s1 with
            | String c' s2 =>
                if (code c' =? 93)%N then Some (JArray [], s2)
                else
                  match parse_elements n' s1 with
                  | Some (vs, rest) => Some (JArray vs, rest)
                  | None => None
                  end
            | EmptyString => None
            end
          else if (code c =? 34)%N then
            match parse_chars s1 with
            | Some (str, rest) => Some (JString str, rest)
            | None => None
            end
          else if (code c =? 116)%N then expect "true" (JBool true) (String c s1)
          else if (code c =? 102)%N then expect "false" (JBool false) (String c s1)
          else if (code c =? 110)%N then expect "null" JNull (String c s1)
          else parse_number (String c s1)
      end
  end

(** One element or more, then the closing bracket. *)
with parse_elements (n : nat) (s : string) : option (list JSON * string) :=
  match n with
  | O => None
  | S n' =>
      match parse_value n' s with
      | Some (v, s1) =>
          match skip_ws s1 with
          | String c s2 =>
              if (code c =? 44)%N then
                match parse_elements n' s2 with
                | Some (vs, rest) => Some (v :: vs, rest)
                | None => None
                end
              else if (code c =? 93)%N then Some ([v], s2)
              else None
          | EmptyString => None
          end
      | None => None
      end
  end

(** One [key : value] member or more, then the closing brace. *)
with parse_members (n : nat) (s : string)
  : option (list (string * JSON) * string) :=
  match n with
  | O => None
  | S n' =>
      match skip_ws s with
      | String c s1 =>
          if (code c =? 34)%N then
            match parse_chars s1 with
            | Some (key, s2) =>
                match skip_ws s2 with
                | String c' s3 =>
                    if (code c' =? 58)%N then
                      match parse_value n' s3 with
                      | Some (v, s4) =>
                          match skip_ws s4 with
                          | String c'' s5 =>
                              if (code c'' =? 44)%N then
                                match parse_members n' s5 with
                                | Some (ms, rest) => Some ((key, v) :: ms, rest)
                                | None => None
                                end
                              else if (code c'' =? 125)%N
                              then Some ([(key, v)], s5)
                              else None
                          | EmptyString => None
                          end
                      | None => None
                      end
                    else None
                | EmptyString => None
                end
            | None => None
            end
          else None
      | EmptyString => None
      end
  end.

(** [JSON.parse]: one value, with nothing but white space after it.
    [None] stands for the [SyntaxError] it throws.  The bound is never
    reached: with any larger one the result is the same
    ([parse_value_bound] below). *)
Definition JSON_parse (text : string) : option JSON :=
  match parse_value (S (2 * String.length text)) text with
  | Some (v, rest) =>
      match skip_ws rest with
      | EmptyString => Some v
      | String _ _ => None
      end
  | None => None
  end.


(** *** [JSON.stringify]

    [serialize v k] is the text of [v] followed by [k]. *)

Definition hex_digit (n : N) : ascii :=
  if (n <? 10)%N then chr (48 + n) else chr (87 + n).

(** One character of a string literal: the quote, the backslash and the
    control characters are escaped, the rest is copied. *)
Definition quote_char (c : ascii) (k : string) : string :=
  let n := code c in
  if (n =? 34)%N then String BACKSLASH (String QUOTE k)
  else if (n =? 92)%N then String BACKSLASH (String BACKSLASH k)
  else if (n =? 8)%N then String BACKSLASH (String "b" k)
  else if (n =? 12)%N then String BACKSLASH (String "f" k)
  else if (n =? 10)%N then String BACKSLASH (String "n" k)
  else if (n =? 13)%N then String BACKSLASH (String "r" k)
  else if (n =? 9)%N then String BACKSLASH (String "t" k)
  else if (n <? 32)%N then
    String BACKSLASH
      (String "u" (String "0" (String "0"
         (String (hex_digit (n / 16)) (String (hex_digit (n mod 16)) k)))))
  else String c k.

Fixpoint quote_chars (s k : string) : string :=
  match s with
  | EmptyString => String QUOTE k
  | String c s' => quote_char c (quote_chars s' k)
  end.

Definition QuoteJSONString (s k : string) : string :=
  String QUOTE (quote_chars s k).

Fixpoint serialize (v : JSON) (k : string) : string :=
  match v with
  | JNull => "null" ++ k
  | JBool true => "true" ++ k
  | JBool false => "false" ++ k
  | JNumber literal => literal ++ k
  | JString s => QuoteJSONString s k
  | JArray [] => "[]" ++ k
  | JArray (v :: vs) =>
      String "["
        (serialize v
           ((fix elements (vs : list JSON) : string :=
               match vs with
               | [] => String "]" k
               | v' :: vs' => String "," (serialize v' (elements vs'))
               end) vs))
  | JObject [] => "{}" ++ k
  | JObject ((key, v) :: ms) =>
      String "{"
        (QuoteJSONString key
           (String ":"
              (serialize v
                 ((fix members (ms : list (string * JSON)) : string :=
                     match ms with
                     | [] => String "}" k
                     | (key', v') :: ms' =>
                         String ","
                           (QuoteJSONString key'
                              (String ":" (serialize v' (members ms'))))
                     end) ms))))
  end.

Definition JSON_stringify (v : JSON) : string := serialize v "".

(** The text after the first element of an array, and after the first
    member of an object: the inner loops of [serialize]. *)
Fixpoint serialize_elements (vs : list JSON) (k : string) : string :=
  match vs with
  | [] => String "]" k
  | v :: vs' => String "," (serialize v (serialize_elements vs' k))
  end.

Fixpoint serialize_members (ms : list (string * JSON)) (k : string) : string :=
  match ms with
  | [] => String "}" k
  | (key, v) :: ms' =>
      String "," (QuoteJSONString key
                    (String ":" (serialize v (serialize_members ms' k))))
  end.

(** A value is representable in the wire format when the numbers in it are
    JSON number literals. *)
Fixpoint representable (v : JSON) : bool :=
  match v with
  | JNumber literal => is_number_literal literal
  | JArray vs => forallb representable vs
  | JObject ms => forallb (fun m => representable (snd m)) ms
  | _ => true
  end.

(** A bound on the values [parse_value] reads to read [v] back. *)
Fixpoint fuel_for (v : JSON) : nat :=
  match v with
  | JArray vs => S (fold_right (fun v n => S (fuel_for v + n)) 0 vs)
  | JObject ms => S (fold_right (fun m n => S (fuel_for (snd m) + n)) 0 ms)
  | _ => 1
  end.

(** The text [k] does not go on with a number character. *)
Definition boundary (k : string) : bool :=
  match k with
  | EmptyString => true
  | String c _ => negb (is_number_char c)
  end.

(** [v], written in front of a text that does not go on with a number
    character, is read back by [parse_value]. *)
Definition reads_back (v : JSON) : Prop :=
  representable v = true ->
  forall n k, fuel_for v <= n -> boundary k = true ->
  parse_value n (serialize v k) = Some (v, k).

(** ** Property reads and string conversion *)

(** The value bound to [key]; when the text repeats a key the last
    binding wins, as in the object [JSON.parse] builds. *)
Fixpoint lookup (key : string) (ms : list (string * JSON))
  (found : option JSON) : option JSON :=
  match ms with
  | [] => found
  | (k, v) :: ms' =>
      lookup key ms' (if String.eqb k key then Some v else found)
  end.

(** [v.key] for the two keys the program reads, [event] and [data], on a
    value other than [null]; [None] is [undefined].  Only an object has
    such a property: strings, arrays, numbers and booleans inherit none
    under these names. *)
Definition Get (v : JSON) (key : string) : option JSON :=
  match v with
  | JObject ms => lookup key ms None
  | _ => None
  end.

(** *** The string of a number

    [Number::toString] on the double a literal denotes: the literal is
    rounded to the nearest double, and the double is written with the
    fewest digits that denote it.  The arithmetic is exact, on integers. *)

Section Numbers.

Local Open Scope Z_scope.

(** The digits at the head of [s], read after the digits that gave [acc]:
    the number read, how many digits were read, and what follows. *)
Fixpoint read_digits (s : string) (acc count : Z) : Z * Z * string :=
  match s with
  | String c s' =>
      if is_digit c
      then read_digits s' (10 * acc + Z.of_N (code c - 48)) (count + 1)
      else (acc, count, s)
  | EmptyString => (acc, count, s)
  end.

(** The exponent part: nothing, or [e] or [E], a sign and digits. *)
Definition read_exponent (s : string) : Z :=
  match s with
  | String _ (String c s') =>
      if (code c =? 45)%N then - fst (fst (read_digits s' 0 0))
      else if (code c =? 43)%N then fst (fst (read_digits s' 0 0))
      else fst (fst (read_digits (String c s') 0 0))
  | _ => 0
  end.

(** A number literal without its sign is [m * 10 ^ e]. *)
Definition decimal_of_literal (literal : string) : Z * Z :=
  let '(i, _, s1) := read_digits (number_sign literal) 0 0 in
  let '(m, fraction, s2) :=
    match s1 with
    | String c s1' =>
        if (code c =? 46)%N then read_digits s1' i 0 else (i, 0, s1)
    | EmptyString => (i, 0, s1)
    end in
  (m, read_exponent s2 - fraction).

Definition is_negative (literal : string) : bool :=
  match literal with
  | String c _ => (code c =? 45)%N
  | EmptyString => false
  end.

(** [x * 2 ^ e] and [x * 10 ^ e] for [e] above zero, [x] otherwise. *)
Definition shift2 (x e : Z) : Z := x * 2 ^ Z.max 0 e.
Definition shift10 (x e : Z) : Z := x * 10 ^ Z.max 0 e.

(** The double nearest to [a / b], ties to the even significand, as
    [(m, q)] for [m * 2 ^ q]: [m] is below [2 ^ 53] and [q] is at least
    [-1074], and [m] is at least [2 ^ 52] unless [q] is [-1074].  [None]
    when [a / b] rounds to a value beyond the largest double. *)
Definition nearest_double (a b : Z) : option (Z * Z) :=
  if a =? 0 then Some (0, -1074)
  else
    let k0 := Z.log2 a - Z.log2 b in
    let k := if shift2 b k0 <=? shift2 a (- k0) then k0 else k0 - 1 in
    let q := Z.max (k - 52) (-1074) in
    let num := shift2 a (- q) in
    let den := shift2 b q in
    let m0 := num / den in
    let r := num mod den in
    let m := if (den <? 2 * r) || ((2 * r =? den) && Z.odd m0)
             then m0 + 1 else m0 in
    let '(m, q) := if m =? 2 ^ 53 then (2 ^ 52, q + 1) else (m, q) in
    if 971 <? q then None else Some (m, q).

(** [10 ^ j <= m * 2 ^ q]. *)
Definition power_of_ten_below (m q j : Z) : bool :=
  shift10 (shift2 1 (- q)) j <=? shift10 (shift2 m q) (- j).

(** The [n] with [10 ^ (n - 1) <= m * 2 ^ q < 10 ^ n], for [m] above
    zero: an estimate from the binary logarithm, put right by comparing. *)
Definition decimal_exponent (m q : Z) : Z :=
  let estimate := (Z.log2 m + q) * 30103 / 100000 in
  if power_of_ten_below m q (estimate + 1) then estimate + 2
  else if power_of_ten_below m q estimate then estimate + 1
  else estimate.

(** The decimal [s * 10 ^ (n - k)] denotes the double [(m, q)]. *)
Definition denotes (s n k m q : Z) : bool :=
  match nearest_double (shift10 s (n - k)) (shift10 1 (k - n)) with
  | Some (m', q') => (m' =? m) && (q' =? q)
  | None => false
  end.

(** The shortest digits that denote the double [(m, q)]: the first [k]
    from [k] on, at most [k + fuel], for which one of the two [k]-digit
    decimals around the double denotes it; of two that do, the nearer,
    and of two as near the even one. *)
Fixpoint shortest (fuel : nat) (k n m q : Z) : Z * Z :=
  let num := shift10 (shift2 m q) (k - n) in
  let den := shift10 (shift2 1 (- q)) (n - k) in
  let low := num / den in
  let r := num mod den in
  let high := low + 1 in
  let low_ok := denotes low n k m q in
  let high_ok := denotes high n k m q in
  let pick_low := if 2 * r <? den then true
                  else if den <? 2 * r then false
                  else Z.even low in
  if low_ok && (pick_low || negb high_ok) then (low, k)
  else if high_ok then (high, k)
  else match fuel with
       | O => (low, k)
       | S fuel' => shortest fuel' (k + 1) n m q
       end.

(** The [k] decimal digits of [s], in front of [rest]. *)
Fixpoint digits (k : nat) (s : Z) (rest : string) : string :=
  match k with
  | O => rest
  | S k' => digits k' (s / 10) (String (chr (48 + Z.to_N (s mod 10))) rest)
  end.

Fixpoint zeros (k : nat) (rest : string) : string :=
  match k with
  | O => rest
  | S k' => String "0" (zeros k' rest)
  end.

(** The decimal digits of [z], which is not negative. *)
Fixpoint decimal (fuel : nat) (z : Z) (rest : string) : string :=
  let rest' := String (chr (48 + Z.to_N (z mod 10))) rest in
  match fuel with
  | O => rest'
  | S fuel' => if z <? 10 then rest' else decimal fuel' (z / 10) rest'
  end.

(** The first [n] characters of [s] and the others, with [point] between
    them. *)
Fixpoint split_at (n : nat) (s : string) (point : string) : string :=
  match n, s with
  | S n', String c s' => String c (split_at n' s' point)
  | _, _ => (point ++ s)%string
  end.

(** [Number::toString] on the positive double that the [k] digits of [s]
    denote at the decimal exponent [n]. *)
Definition format (s k n : Z) : string :=
  let ds := digits (Z.to_nat k) s "" in
  if (k <=? n) && (n <=? 21) then digits (Z.to_nat k) s (zeros (Z.to_nat (n - k)) "")
  else if (0 <? n) && (n <=? 21) then split_at (Z.to_nat n) ds "."
  else if (-6 <? n) && (n <=? 0) then ("0." ++ zeros (Z.to_nat (- n)) ds)%string
  else
    let exponent :=
      String "e" (String (if 0 <? n - 1 then "+"%char else "-"%char)
                    (decimal 4 (Z.abs (n - 1)) "")) in
    if k =? 1 then (ds ++ exponent)%string
    else (split_at 1 ds "." ++ exponent)%string.

(** [Number::toString] on the double that the literal denotes. *)
Definition NumberToString (literal : string) : string :=
  let (m10, e10) := decimal_of_literal literal in
  match nearest_double (shift10 m10 e10) (shift10 1 (- e10)) with
  | None => if is_negative literal then "-Infinity" else "Infinity"
  | Some (m, q) =>
      if m =? 0 then "0"
      else
        let n := decimal_exponent m q in
        let (s, k) := shortest 16 1 n m q in
        let '(s, k, n) := if s =? 10 ^ k then (1, 1, n + 1) else (s, k, n) in
        ((if is_negative literal then "-" else "") ++ format s k n)%string
  end.

End Numbers.

(** [ToString], applied by the [CustomEvent] constructor to its first
    argument; [None] is the [TypeError] it throws.  A number gives the
    string of its double.  An array joins the strings of its elements with
    commas, [null] counting for nothing.  An object is converted by the
    [toString] it has: the one it inherits answers the same string
    whatever the object holds; a property of its own under that name,
    which in a value read from JSON is never a function, hides the
    inherited one, and then no conversion applies: the inherited
    [valueOf] answers the object itself. *)
Fixpoint ToString (v : JSON) : option string :=
  match v with
  | JNull => Some "null"
  | JBool true => Some "true"
  | JBool false => Some "false"
  | JNumber literal => Some (NumberToString literal)
  | JString s => Some s
  | JArray vs =>
      (fix join (vs : list JSON) : option string :=
         match vs with
         | [] => Some ""
         | v :: vs' =>
             match match v with JNull => Some "" | _ => ToString v end,
                   match vs' with
                   | [] => Some ""
                   | _ :: _ => option_map (append ",") (join vs')
                   end
             with
             | Some first, Some others => Some (first ++ others)
             | _, _ => None
             end
         end) vs
  | JObject ms =>
      match lookup "toString" ms None with
      | Some _ => None
      | None => Some "[object Object]"
      end
  end.

(** ** Envelopes *)

Local Open Scope list_scope.

(** A [CustomEvent]: [type] is the event name, [detail] the payload. *)
Record CustomEvent : Type := { type : string; detail : JSON }.

(** [new CustomEvent(payload.event, { detail: payload.data })] on
    [payload = JSON.parse(data)], lines 23-24 of [handleMessage].  [None]
    is an exception: the [SyntaxError] of [JSON.parse], the [TypeError] of
    reading a property of [null], or the [TypeError] of the constructor
    when [payload.event] has no string.  An absent [event] is converted to
    the string [undefined]; an absent [data] leaves [detail] at its
    default, [null].  The payload is handed on as it was parsed, its
    numbers as the literals of the frame. *)
Definition decode (data : string) : option CustomEvent :=
  match JSON_parse data with
  | None => None
  | Some JNull => None
  | Some payload =>
      match match Get payload "event" with
            | Some v => ToString v
            | None => Some "undefined"
            end
      with
      | Some name =>
          Some {| type := name;
                  detail := match Get payload "data" with
                            | Some v => v
                            | None => JNull
                            end |}
      | None => None
      end
  end.

(** The frame [send(event, data)] passes to [ws.send], line 41:
    [JSON.stringify({ event, data })].  [data = None] is [undefined], and
    [JSON.stringify] leaves an undefined property out. *)
Definition encode (event : string) (data : option JSON) : string :=
  JSON_stringify
    (JObject (("event", JString event)
              :: match data with
                 | Some d => [("data", d)]
                 | None => []
                 end)).

(** ** The provider: [M2Provider]

    The component is rendered once; its closure holds [frozen],
    [frozenEventQ] and the [listeners] event target (lines 15-18).  The
    state below is that closure, with a [trace] of what the provider did
    to the world around it, in the order it did it. *)

Inductive Effect : Type :=
| Pushed (e : CustomEvent)      (** [frozenEventQ.push(m2Event)], line 26 *)
| Dispatched (e : CustomEvent)  (** [listeners.dispatchEvent(m2Event)], line 29 *)
| Drained (e : CustomEvent)     (** [listeners.dispatchEvent(frozenEventQ.shift())], line 48 *)
| Invoked (listener : nat) (e : CustomEvent)
                                (** the event target calls a listener *)
| Gate (_frozen : bool)         (** [frozen = _frozen], line 45 *)
| Sent (frame : string)         (** [ws.send(frame)], line 41 *)
| Reported (error : string).    (** an exception left [handleMessage] *)

Record M2State : Type := {
  frozen : bool;
  frozenEventQ : list CustomEvent;
  trace : list Effect
}.

(** The closure as [M2Provider] creates it, lines 17-18. *)
Definition M2Provider : M2State :=
  {| frozen := false; frozenEventQ := []; trace := [] |}.

Definition record (x : Effect) (st : M2State) : M2State :=
  {| frozen := frozen st;
     frozenEventQ := frozenEventQ st;
     trace := trace st ++ [x] |}.

Definition set_frozen (b : bool) (st : M2State) : M2State :=
  {| frozen := b; frozenEventQ := frozenEventQ st; trace := trace st |}.

Definition set_frozenEventQ (queue : list CustomEvent) (st : M2State) : M2State :=
  {| frozen := frozen st; frozenEventQ := queue; trace := trace st |}.

(** What a listener, or the application, can do with the context value
    [{ ws, listeners, send, freeze }] while it runs: call [freeze], call
    [send], or have [ws] deliver a [message] event. *)
Inductive Call : Type :=
| CallFreeze (_frozen : bool)
| CallSend (event : string) (data : option JSON)
| CallMessage (data : string).

(** A listener registered on [listeners] with
    [addEventListener(on, callback)].  The callback is given the trace up
    to its invocation and the event, and answers with the calls it makes,
    in order; an exception it throws is reported by the event target and
    reaches neither the other listeners nor [dispatchEvent]'s caller. *)
Record Listener : Type := {
  on : string;
  callback : list Effect -> CustomEvent -> list Call
}.

(** A JavaScript completion: a normal return, or a thrown [Error]. *)
Inductive Completion (A : Type) : Type :=
| Return (a : A)
| Throw (error : string).
Arguments Return {A} a.
Arguments Throw {A} error.

Section Provider.

(** The listeners, in registration order. *)
Variable listeners : list Listener.

(** How a call made by a listener is carried out; the knot is tied in
    [call] below.  [None] means the bound on nested calls ran out. *)
Variable call : Call -> M2State -> option M2State.

Fixpoint run_calls (cs : list Call) (st : M2State) : option M2State :=
  match cs with
  | [] => Some st
  | c :: cs' =>
      match call c st with
      | Some st' => run_calls cs' st'
      | None => None
      end
  end.

(** The listeners from the [i]-th on that are registered for the type of
    [e] are called in turn. *)
Fixpoint invoke (i : nat) (ls : list Listener) (e : CustomEvent)
  (st : M2State) : option M2State :=
  match ls with
  | [] => Some st
  | l :: ls' =>
      if String.eqb (on l) (type e) then
        match run_calls (callback l (trace st) e) (record (Invoked i e) st) with
        | Some st' => invoke (S i) ls' e st'
        | None => None
        end
      else invoke (S i) ls' e st
  end.

(** [listeners.dispatchEvent(e)]. *)
Definition dispatchEvent (e : CustomEvent) (st : M2State) : option M2State :=
  invoke 0 listeners e st.

(** [handleMessage(event)], lines 21-35, on [event.data = data]. *)
Definition handleMessage (data : string) (st : M2State)
  : option (Completion M2State) :=
  match decode data with
  | Some m2Event =>
      if frozen st then
        Some (Return (record (Pushed m2Event)
                        (set_frozenEventQ (frozenEventQ st ++ [m2Event]) st)))
      else
        match dispatchEvent m2Event (record (Dispatched m2Event) st) with
        | Some st' => Some (Return st')
        | None => None
        end
  | None => Some (Throw ("Cannot parse message from M2: " ++ data)%string)
  end.

(** Modelled from the spec: the socket [ws], which the provider takes from
    [utils/services], a module that is not among the sources; the spec
    calls it the transport handle, with an inbound-frame notification
    mechanism, and has every failure local, reported and recoverable by
    continued operation.  It hands the frame to the handler registered for
    [message], which is [handleMessage]; an exception that leaves the
    handler is reported, and the socket goes on with the next frame. *)
Definition ws_message (data : string) (st : M2State) : option M2State :=
  match handleMessage data st with
  | Some (Return st') => Some st'
  | Some (Throw error) => Some (record (Reported error) st)
  | None => None
  end.

(** [send(event, data)], lines 40-42. *)
Definition send (event : string) (data : option JSON) (st : M2State)
  : M2State :=
  record (Sent (encode event data)) st.

(** The loop of lines 47-49; [k] bounds its iterations. *)
Fixpoint drain (k : nat) (st : M2State) : option M2State :=
  match frozenEventQ st with
  | [] => Some st
  | e :: queue =>
      match k with
      | O => None
      | S k' =>
          match dispatchEvent e (record (Drained e) (set_frozenEventQ queue st)) with
          | Some st' => drain k' st'
          | None => None
          end
      end
  end.

(** [freeze(_frozen)], lines 44-51. *)
Definition freeze (k : nat) (_frozen : bool) (st : M2State) : option M2State :=
  let st1 := record (Gate _frozen) (set_frozen _frozen st) in
  if negb (frozen st1) then drain k st1 else Some st1.

End Provider.

(** A call into the provider, made by the application or by a listener.
    [n] bounds the depth of calls made from within listeners and the
    iterations of each drain loop; [None] means it was too small. *)
Fixpoint call (listeners : list Listener) (n : nat) (c : Call) (st : M2State)
  : option M2State :=
  match n with
  | O => None
  | S n' =>
      match c with
      | CallFreeze _frozen => freeze listeners (call listeners n') n' _frozen st
      | CallSend event data => Some (send event data st)
      | CallMessage data => ws_message listeners (call listeners n') data st
      end
  end.

(** A sequence of calls made by the application, one after the other. *)
Definition run (listeners : list Listener) (n : nat) (cs : list Call)
  (st : M2State) : option M2State :=
  run_calls (call listeners n) cs st.

(** What the [i]-th listener has been called with, in order. *)
Fixpoint observed (i : nat) (tr : list Effect) : list CustomEvent :=
  match tr with
  | [] => []
  | Invoked j e :: tr' =>
      if Nat.eqb i j then e :: observed i tr' else observed i tr'
  | _ :: tr' => observed i tr'
  end.

(** The events handed to [listeners.dispatchEvent], in order. *)
Fixpoint dispatched (tr : list Effect) : list CustomEvent :=
  match tr with
  | [] => []
  | Dispatched e :: tr' => e :: dispatched tr'
  | Drained e :: tr' => e :: dispatched tr'
  | _ :: tr' => dispatched tr'
  end.

(** The events appended to the frozen queue, and those taken from it. *)
Fixpoint pushed (tr : list Effect) : list CustomEvent :=
  match tr with
  | [] => []
  | Pushed e :: tr' => e :: pushed tr'
  | _ :: tr' => pushed tr'
  end.

Fixpoint drained (tr : list Effect) : list CustomEvent :=
  match tr with
  | [] => []
  | Drained e :: tr' => e :: drained tr'
  | _ :: tr' => drained tr'
  end.

(** The errors reported so far. *)
Fixpoint reported (tr : list Effect) : list string :=
  match tr with
  | [] => []
  | Reported error :: tr' => error :: reported tr'
  | _ :: tr' => reported tr'
  end.

(** The frames handed to [ws.send], in order: [send] is the one call the
    provider makes on the socket. *)
Fixpoint sent (tr : list Effect) : list string :=
  match tr with
  | [] => []
  | Sent frame :: tr' => frame :: sent tr'
  | _ :: tr' => sent tr'
  end.

(** The value of [frozen] after the assignments recorded in [tr], starting
    from [b]. *)
Fixpoint gate_after (b : bool) (tr : list Effect) : bool :=
  match tr with
  | [] => b
  | Gate b' :: tr' => gate_after b' tr'
  | _ :: tr' => gate_after b tr'
  end.

(** The states the provider can be in between two calls of the
    application: the initial one, and any state a completed call leaves. *)
Inductive reachable (listeners : list Listener) : M2State -> Prop :=
| reachable_init : reachable listeners M2Provider
| reachable_call n c st st' :
    reachable listeners st ->
    call listeners n c st = Some st' ->
    reachable listeners st'.

(** The envelopes the frames of a list decode to, in order. *)
Definition envelopes (frames : list string) : list CustomEvent :=
  flat_map (fun data => match decode data with
                        | Some e => [e]
                        | None => []
                        end) frames.

(** [l] is registered for the type of [e]. *)
Definition listens (l : Listener) (e : CustomEvent) : bool :=
  String.eqb (on l) (type e).

(** [st'] comes after [st]: the trace has grown by some [new] effects, the
    queue lost at its head what [new] drained and gained at its tail what
    [new] pushed, and [frozen] holds what [new] last assigned to it. *)
Definition advances_by (new : list Effect) (st st' : M2State) : Prop :=
  trace st' = trace st ++ new /\
  frozenEventQ st ++ pushed new = drained new ++ frozenEventQ st' /\
  frozen st' = gate_after (frozen st) new.

Definition advances (st st' : M2State) : Prop :=
  exists new, advances_by new st st'.

(** Between two calls of the application a flowing gate has an empty
    queue. *)
Definition settled (st : M2State) : Prop :=
  frozen st = false -> frozenEventQ st = [].

(** No listener is registered for the type of [e]. *)
Definition silent (listeners : list Listener) (e : CustomEvent) : bool :=
  forallb (fun l => negb (listens l e)) listeners.

(** The calls of a restrained listener: it may engage the gate, send, and
    have [ws] deliver frames nobody listens to; it does not release the
    gate and does not feed the other listeners. *)
Definition allowed (listeners : list Listener) (c : Call) : bool :=
  match c with
  | CallFreeze _frozen => _frozen
  | CallSend _ _ => true
  | CallMessage data =>
      match decode data with
      | Some e => silent listeners e
      | None => true
      end
  end.

Definition restrained (listeners : list Listener) : Prop :=
  forall l tr e, In l listeners ->
    forallb (allowed listeners) (callback l tr e) = true.

(** The calls a listener may make, when it is called for [e], under the
    order [rank]: engage the gate, send, and have [ws] deliver a frame
    that does not decode, or whose envelope ranks below [e]. *)
Definition lower (rank : CustomEvent -> nat) (e : CustomEvent) (c : Call)
  : bool :=
  match c with
  | CallFreeze _frozen => _frozen
  | CallSend _ _ => true
  | CallMessage data =>
      match decode data with
      | Some e' => (rank e' <? rank e)%nat
      | None => true
      end
  end.

(** Listeners that feed each other in a descending order: each makes only
    such calls.  A listener may then feed envelopes to the others, but a
    chain of envelopes, each fed by the handling of the one before, comes
    to an end; and none releases the gate. *)
Definition descending (rank : CustomEvent -> nat) (listeners : list Listener)
  : Prop :=
  forall l tr e, In l listeners -> listens l e = true ->
    forallb (lower rank e) (callback l tr e) = true.

(** The order that puts the events somebody listens to above the others. *)
Definition loudness (listeners : list Listener) (e : CustomEvent) : nat :=
  if silent listeners e then 0 else 1.

(** An effect other than a release of the gate. *)
Definition holds (x : Effect) : bool :=
  match x with
  | Gate false => false
  | _ => true
  end.

(** From [st] to [st'] the gate was not released. *)
Definition held (st st' : M2State) : Prop :=
  exists new, trace st' = trace st ++ new /\ forallb holds new = true.

(** From [st] to [st'] the gate was not released, and the queue gained
    only envelopes that rank below [bound]. *)
Definition feeds (rank : CustomEvent -> nat) (bound : nat) (st st' : M2State)
  : Prop :=
  (exists ps, frozenEventQ st' = frozenEventQ st ++ ps /\
              forallb (fun e => (rank e <? bound)%nat) ps = true) /\
  held st st'.

(** An effect that touches neither the queue nor the gate. *)
Definition outward (x : Effect) : bool :=
  match x with
  | Pushed _ | Drained _ | Gate _ => false
  | _ => true
  end.

(** What the [i]-th listener sees of one dispatch of [e] to the listeners
    [ls], the first of which is the [j]-th. *)
Fixpoint sees (i j : nat) (ls : list Listener) (e : CustomEvent)
  : list CustomEvent :=
  match ls with
  | [] => []
  | l :: ls' =>
      (if listens l e && Nat.eqb i j then [e] else []) ++ sees i (S j) ls' e
  end.

(** The events of a queue some listener is registered for. *)
Definition loud (listeners : list Listener) (queue : list CustomEvent)
  : list CustomEvent :=
  filter (fun e => negb (silent listeners e)) queue.

(** [st'] has the queue of [st] and then events nobody listens to. *)
Definition appends_silent (listeners : list Listener) (st st' : M2State)
  : Prop :=
  exists ps, frozenEventQ st' = frozenEventQ st ++ ps /\
             forallb (silent listeners) ps = true.

(** From [st] to [st'] no listener was called, and only such events were
    appended to the queue. *)
Definition quietly (listeners : list Listener) (st st' : M2State) : Prop :=
  appends_silent listeners st st' /\
  forall i, observed i (trace st') = observed i (trace st).

(** The gate and the queue are the same in [st'] as in [st]. *)
Definition same_gate (st st' : M2State) : Prop :=
  frozen st' = frozen st /\ frozenEventQ st' = frozenEventQ st.

(** Nothing was dispatched and no listener was called from [st] to [st']. *)
Definition same_deliveries (st st' : M2State) : Prop :=
  dispatched (trace st') = dispatched (trace st) /\
  forall i, observed i (trace st') = observed i (trace st).

(** *** A dashboard to try the provider on

    Two listeners: the first, registered for [status], calls nothing; the
    second, registered for [pong], engages the gate and has [ws] deliver a
    [tick] frame, for which nobody is registered. *)

Definition status_frame : string := q "{'event':'status','data':[true,12,3]}".
Definition pong_frame : string := q "{'event':'pong'}".
Definition tick_frame : string := q "{'event':'tick','data':1}".
Definition empty_name_frame : string := q "{'event':'','data':7}".
Definition malformed_frame : string := q "{'event':'status',".
Definition request_frame : string := q "{'event':{'toString':1}}".

Definition dashboard : list Listener :=
  [ {| on := "status"; callback := fun _ _ => [] |};
    {| on := "pong";
       callback := fun _ _ => [CallFreeze true; CallMessage tick_frame] |} ].

(** The gate engaged, with a [pong] and a [status] envelope waiting. *)
Definition backlog : M2State :=
  {| frozen := true;
     frozenEventQ := [ {| type := "pong"; detail := JNull |};
                       {| type := "status";
                          detail := JArray [JBool true; JNumber "12"; JNumber "3"] |} ];
     trace := [] |}.

(** Two listeners again: the first, registered for [status], calls
    nothing; the second, registered for [pong], engages the gate and has
    [ws] deliver a [status] frame, which the first is registered for. *)
Definition feeder : list Listener :=
  [ {| on := "status"; callback := fun _ _ => [] |};
    {| on := "pong";
       callback := fun _ _ => [CallFreeze true; CallMessage status_frame] |} ].

(** [pong] events rank above the others. *)
Definition pong_first (e : CustomEvent) : nat :=
  if String.eqb (type e) "pong" then 1 else 0.

(** ** The heartbeat: [usePingPongState]

    Times are [Date.now()] readings in milliseconds.  The effect of lines
    73-106 runs once, after the first render: its dependencies [ws],
    [frequency] and [timeout] do not change while the hook is mounted. *)

Module PingPong.

Inductive Effect : Type :=
| Ping (frame : string)       (** [send('ping')], line 88 *)
| Reconnect                   (** [ws.reconnect()], line 83 *)
| SetConnected (b : bool)     (** [setConnected(b)], lines 81 and 95 *)
| SetLatency (ms : Z).        (** [setLatency(ms)], line 97 *)

Record Hook : Type := {
  frequency : Z;              (** the period of the interval timer *)
  timeout : Z;
  at_ : Z;                    (** [at], line 74: 0, or when the ping left *)
  previousCheck : Z;          (** line 76 *)
  connected : bool;           (** React state, line 71 *)
  latency : Z;                (** React state, line 70 *)
  closure_connected : bool;   (** [connected] as [handlePong] sees it:
                                  its value at the render that ran the
                                  effect *)
  effects : list Effect
}.

(** The hook after its first render and its effect, at time [now]:
    [connected] is [false], [latency] is 0, no ping is out, and the
    interval timer runs with period [frequency]. *)
Definition mounted (frequency timeout now : Z) : Hook :=
  {| frequency := frequency;
     timeout := timeout;
     at_ := 0;
     previousCheck := now;
     connected := false;
     latency := 0;
     closure_connected := false;
     effects := [] |}.

(** [usePingPongState(frequency, timeout)], first render.  No statement
    of the hook throws, whatever its arguments. *)
Definition usePingPongState (frequency timeout now : Z) : Completion Hook :=
  Return (mounted frequency timeout now).

Definition emit (x : Effect) (h : Hook) : Hook :=
  {| frequency := frequency h; timeout := timeout h;
     at_ := at_ h; previousCheck := previousCheck h;
     connected := connected h; latency := latency h;
     closure_connected := closure_connected h;
     effects := effects h ++ [x] |}.

Definition set_at (t : Z) (h : Hook) : Hook :=
  {| frequency := frequency h; timeout := timeout h;
     at_ := t; previousCheck := previousCheck h;
     connected := connected h; latency := latency h;
     closure_connected := closure_connected h;
     effects := effects h |}.

Definition set_previousCheck (t : Z) (h : Hook) : Hook :=
  {| frequency := frequency h; timeout := timeout h;
     at_ := at_ h; previousCheck := t;
     connected := connected h; latency := latency h;
     closure_connected := closure_connected h;
     effects := effects h |}.

Definition setConnected (b : bool) (h : Hook) : Hook :=
  emit (SetConnected b)
    {| frequency := frequency h; timeout := timeout h;
       at_ := at_ h; previousCheck := previousCheck h;
       connected := b; latency := latency h;
       closure_connected := closure_connected h;
       effects := effects h |}.

Definition setLatency (ms : Z) (h : Hook) : Hook :=
  emit (SetLatency ms)
    {| frequency := frequency h; timeout := timeout h;
       at_ := at_ h; previousCheck := previousCheck h;
       connected := connected h; latency := ms;
       closure_connected := closure_connected h;
       effects := effects h |}.

(** The timer callback, lines 77-91, when [Date.now()] returns [now]. *)
Definition tick (now : Z) (h : Hook) : Hook :=
  let h1 :=
    if negb (at_ h =? 0)%Z && (now - previousCheck h >? 2 * frequency h)%Z then
      if (now - at_ h >=? timeout h)%Z then
        emit Reconnect (set_at 0 (setConnected false h))
      else h
    else
      emit (Ping (encode "ping" None)) (set_at now h)
  in
  set_previousCheck now h1.

(** [handlePong], lines 93-99, when [Date.now()] returns [now]. *)
Definition handlePong (now : Z) (h : Hook) : Hook :=
  let h1 := if negb (closure_connected h) then setConnected true h else h in
  set_at 0 (setLatency (now - at_ h1) h1).

(** What happens to a mounted hook: the timer fires, or a [pong] event
    is dispatched to it. *)
Inductive Input : Type :=
| Tick (now : Z)
| Pong (now : Z).

Definition step (h : Hook) (i : Input) : Hook :=
  match i with
  | Tick now => tick now h
  | Pong now => handlePong now h
  end.

Definition steps (inputs : list Input) (h : Hook) : Hook :=
  fold_left step inputs h.

Definition is_ping (x : Effect) : bool :=
  match x with
  | Ping _ => true
  | _ => false
  end.

(** Ticks that follow each other, the first one after [previous], with
    no gap above twice the period [P]. *)
Fixpoint regular (P previous : Z) (ticks : list Z) : Prop :=
  match ticks with
  | [] => True
  | now :: ticks' => (now - previous <= 2 * P)%Z /\ regular P now ticks'
  end.

End PingPong.

(** ** The status tracker: [useStatusState]

    The hook is called at every render of its component.  Its effect,
    lines 132-142, has the dependency list [[ws]]: React runs it after the
    first render and after a render in which [ws] is not the object it was
    at the previous run.  The listener it registers is the [handleStatus]
    created by that render, and the [ignoreOnlineStatus] this function
    reads is the constant of that render's scope. *)

Module Status.

Record Hook : Type := {
  online : JSON;                      (** React state, line 117 *)
  ignoreOnlineStatus : bool;          (** React state, line 118 *)
  latency : JSON;                     (** React state, line 119 *)
  rate : JSON;                        (** React state, line 120 *)
  effect_deps : option nat;           (** [ws] at the last run of the
                                          effect; [None] before the
                                          first *)
  closure_ignoreOnlineStatus : bool   (** [ignoreOnlineStatus] in the
                                          scope of the registered
                                          [handleStatus] *)
}.

(** The hook before its first render: the initial values of the four
    [useState] cells. *)
Definition unmounted : Hook :=
  {| online := JBool false;
     ignoreOnlineStatus := false;
     latency := JNumber "0";
     rate := JNumber "0";
     effect_deps := None;
     closure_ignoreOnlineStatus := false |}.

Definition run_effect (ws : nat) (h : Hook) : Hook :=
  {| online := online h;
     ignoreOnlineStatus := ignoreOnlineStatus h;
     latency := latency h;
     rate := rate h;
     effect_deps := Some ws;
     closure_ignoreOnlineStatus := ignoreOnlineStatus h |}.

(** One render: a call of [useStatusState] while the context holds the
    socket [ws], followed by the effect when its dependency changed. *)
Definition useStatusState (ws : nat) (h : Hook) : Hook :=
  match effect_deps h with
  | Some ws' => if Nat.eqb ws ws' then h else run_effect ws h
  | None => run_effect ws h
  end.

Definition setOnline (v : JSON) (h : Hook) : Hook :=
  {| online := v;
     ignoreOnlineStatus := ignoreOnlineStatus h;
     latency := latency h;
     rate := rate h;
     effect_deps := effect_deps h;
     closure_ignoreOnlineStatus := closure_ignoreOnlineStatus h |}.

Definition setIgnoreOnlineStatus (b : bool) (h : Hook) : Hook :=
  {| online := online h;
     ignoreOnlineStatus := b;
     latency := latency h;
     rate := rate h;
     effect_deps := effect_deps h;
     closure_ignoreOnlineStatus := closure_ignoreOnlineStatus h |}.

Definition setLatency (v : JSON) (h : Hook) : Hook :=
  {| online := online h;
     ignoreOnlineStatus := ignoreOnlineStatus h;
     latency := v;
     rate := rate h;
     effect_deps := effect_deps h;
     closure_ignoreOnlineStatus := closure_ignoreOnlineStatus h |}.

Definition setRate (v : JSON) (h : Hook) : Hook :=
  {| online := online h;
     ignoreOnlineStatus := ignoreOnlineStatus h;
     latency := latency h;
     rate := v;
     effect_deps := effect_deps h;
     closure_ignoreOnlineStatus := closure_ignoreOnlineStatus h |}.

(** The hotkey callbacks, lines 122-130. *)
Definition forceOnline (h : Hook) : Hook :=
  setOnline (JBool true) (setIgnoreOnlineStatus true h).

Definition forceOffline (h : Hook) : Hook :=
  setOnline (JBool false) (setIgnoreOnlineStatus true h).

(** [handleStatus], lines 133-139, on an event whose [detail] is the
    array of [online], [latency] and [rate]. *)
Definition handleStatus (online latency rate : JSON) (h : Hook) : Hook :=
  let h1 := if negb (closure_ignoreOnlineStatus h) then setOnline online h else h in
  setRate rate (setLatency latency h1).

Inductive Input : Type :=
| ForceOnlineKey
| ForceOfflineKey
| StatusEvent (online latency rate : JSON).

(** An input runs its callback; the state changes make React render
    the component again, with the same socket in the context. *)
Definition step (ws : nat) (h : Hook) (i : Input) : Hook :=
  useStatusState ws
    match i with
    | ForceOnlineKey => forceOnline h
    | ForceOfflineKey => forceOffline h
    | StatusEvent online latency rate => handleStatus online latency rate h
    end.

(** The component is mounted, then receives [inputs]. *)
Definition session (ws : nat) (inputs : list Input) : Hook :=
  fold_left (step ws) inputs (useStatusState ws unmounted).

End Status.

(** ** Further definitions, for the properties beyond the claims *)

(** The frames among the calls of the application. *)
Fixpoint frames_of (cs : list Call) : list string :=
  match cs with
  | [] => []
  | CallMessage data :: cs' => data :: frames_of cs'
  | _ :: cs' => frames_of cs'
  end.

(** A listener that, each time it is called, engages the gate and has
    [ws] deliver the frame [data]. *)
Definition echoes (l : Listener) (data : string) : Prop :=
  forall tr e, callback l tr e = [CallFreeze true; CallMessage data].

(** An event of type [t] waits in the queue. *)
Definition waiting (t : string) (st : M2State) : bool :=
  existsb (fun e => String.eqb t (type e)) (frozenEventQ st).

(** Two listeners for the events of type [t]: the first releases the gate
    each time it is called, the second calls nothing. *)
Definition relay (t : string) : list Listener :=
  [ {| on := t; callback := fun _ _ => [CallFreeze false] |};
    {| on := t; callback := fun _ _ => [] |} ].

(** A listener for [pong] that echoes a [pong] frame. *)
Definition pong_echo : Listener :=
  {| on := "pong";
     callback := fun _ _ => [CallFreeze true; CallMessage pong_frame] |}.

(** The gate engaged, with three [status] envelopes waiting. *)
Definition status_backlog : M2State :=
  {| frozen := true;
     frozenEventQ := [ {| type := "status"; detail := JNumber "1" |};
                       {| type := "status"; detail := JNumber "2" |};
                       {| type := "status"; detail := JNumber "3" |} ];
     trace := [] |}.

(** [send] was not given a payload that the wire cannot carry. *)
Definition sendable (data : option JSON) : bool :=
  match data with
  | Some d => representable d
  | None => true
  end.

(** Inputs of the heartbeat in which no tick comes later than twice the
    period [P] after the tick before it, the first one after [previous]. *)
Fixpoint regular_inputs (P previous : Z) (inputs : list PingPong.Input) : Prop :=
  match inputs with
  | [] => True
  | PingPong.Tick now :: inputs' =>
      (now - previous <= 2 * P)%Z /\ regular_inputs P now inputs'
  | PingPong.Pong _ :: inputs' => regular_inputs P previous inputs'
  end.

Definition is_pong (i : PingPong.Input) : bool :=
  match i with
  | PingPong.Pong _ => true
  | PingPong.Tick _ => false
  end.

(** The monitor declares the channel down, or asks for a reconnect. *)
Definition gives_up (x : PingPong.Effect) : bool :=
  match x with
  | PingPong.Reconnect => true
  | PingPong.SetConnected false => true
  | _ => false
  end.

Definition quiet_effect (x : PingPong.Effect) : bool := negb (gives_up x).

(** How many times [ws.reconnect()] was called, and how many pings left. *)
Fixpoint reconnects (xs : list PingPong.Effect) : nat :=
  match xs with
  | [] => 0
  | PingPong.Reconnect :: xs' => S (reconnects xs')
  | _ :: xs' => reconnects xs'
  end.

Fixpoint pings (xs : list PingPong.Effect) : nat :=
  match xs with
  | [] => 0
  | PingPong.Ping _ :: xs' => S (pings xs')
  | _ :: xs' => pings xs'
  end.

(** One if a ping is out, zero if none is. *)
Definition outstanding (h : PingPong.Hook) : nat :=
  if (PingPong.at_ h =? 0)%Z then 0 else 1.

(** Whether a ping has left since the last reconnect, after the effects
    [xs]; [armed] says whether one had before them. *)
Fixpoint ping_out (armed : bool) (xs : list PingPong.Effect) : bool :=
  match xs with
  | [] => armed
  | PingPong.Ping _ :: xs' => ping_out true xs'
  | PingPong.Reconnect :: xs' => ping_out false xs'
  | _ :: xs' => ping_out armed xs'
  end.

(** Every reconnect among the effects [xs] finds a ping that has left
    since the reconnect before it. *)
Fixpoint reconnects_after_pings (armed : bool) (xs : list PingPong.Effect) : bool :=
  match xs with
  | [] => true
  | PingPong.Ping _ :: xs' => reconnects_after_pings true xs'
  | PingPong.Reconnect :: xs' => armed && reconnects_after_pings false xs'
  | _ :: xs' => reconnects_after_pings armed xs'
  end.

Definition is_force_key (i : Status.Input) : bool :=
  match i with
  | Status.ForceOnlineKey | Status.ForceOfflineKey => true
  | Status.StatusEvent _ _ _ => false
  end.

(* ================================================================== *)
(** * Part II: theorems                                                *)
(* ================================================================== *)

(** ** The JSON codec *)

Local Open Scope string_scope.

(** Induction on a value, with the hypothesis for every element of an
    array and every member of an object. *)
Lemma JSON_induction (P : JSON -> Prop) :
  P JNull ->
  (forall b, P (JBool b)) ->
  (forall literal, P (JNumber literal)) ->
  (forall s, P (JString s)) ->
  (forall vs, Forall P vs -> P (JArray vs)) ->
  (forall ms, Forall (fun m => P (snd m)) ms -> P (JObject ms)) ->
  forall v, P v.
Proof.
  intros Hnull Hbool Hnum Hstr Harr Hobj.
  fix IH 1.
  intros [ | b | literal | s | vs | ms ].
  - exact Hnull.
  - apply Hbool.
  - apply Hnum.
  - apply Hstr.
  - apply Harr. induction vs as [ | v vs IHvs ]; constructor.
    + apply IH.
    + exact IHvs.
  - apply Hobj. induction ms as [ | [key v] ms IHms ]; constructor.
    + apply IH.
    + exact IHms.
Qed.

(** *** String literals are read back *)

Lemma parse_chars_quote_char c k :
  parse_chars (quote_char c k) =
  match parse_chars k with
  | Some (str, rest) => Some (String c str, rest)
  | None => None
  end.
Proof.
  destruct c as [[] [] [] [] [] [] [] []]; cbn;
    destruct (parse_chars k) as [[? ?]|]; reflexivity.
Qed.

Lemma parse_chars_quote_chars s k : parse_chars (quote_chars s k) = Some (s, k).
Proof.
  induction s as [ | c s IH ]; simpl.
  - reflexivity.
  - now rewrite parse_chars_quote_char, IH.
Qed.

(** *** Number literals are made of number characters *)

Lemma eats_refl s : eats s s.
Proof. exists EmptyString. split; reflexivity. Qed.

Lemma eats_char c s s' :
  is_number_char c = true -> eats s s' -> eats (String c s) s'.
Proof.
  intros Hc [p [-> Hp]]. exists (String c p). split; [reflexivity|].
  simpl. now rewrite Hc, Hp.
Qed.

Lemma eats_trans s1 s2 s3 : eats s1 s2 -> eats s2 s3 -> eats s1 s3.
Proof.
  intros [p [-> Hp]] [p' [-> Hp']]. exists (p ++ p'). split.
  - clear. induction p as [ | c p IH ]; simpl; [reflexivity | now rewrite IH].
  - clear - Hp Hp'. induction p as [ | c p IH ]; simpl in *; [assumption|].
    apply andb_true_iff in Hp as [-> Hp]. simpl. now apply IH.
Qed.

Lemma digit_number_char c : is_digit c = true -> is_number_char c = true.
Proof. unfold is_number_char. now intros ->. Qed.

Lemma eats_skip_digits s : eats s (skip_digits s).
Proof.
  induction s as [ | c s IH ]; simpl; [apply eats_refl|].
  destruct (is_digit c) eqn:Hc; [|apply eats_refl].
  apply eats_char; [now apply digit_number_char | exact IH].
Qed.

Lemma eats_digits1 s s' : digits1 s = Some s' -> eats s s'.
Proof.
  destruct s as [ | c s ]; simpl; [discriminate|].
  destruct (is_digit c) eqn:Hc; [|discriminate].
  intros [= <-]. apply eats_char; [now apply digit_number_char | apply eats_skip_digits].
Qed.

Lemma eats_number_sign s : eats s (number_sign s).
Proof.
  destruct s as [ | c s ]; simpl; [apply eats_refl|].
  destruct (code c =? 45)%N eqn:Hc; [|apply eats_refl].
  apply eats_char; [|apply eats_refl].
  unfold is_number_char. rewrite Hc. now rewrite !orb_true_r.
Qed.

Lemma eats_number_int s s' : number_int s = Some s' -> eats s s'.
Proof.
  destruct s as [ | c s ]; simpl; [discriminate|].
  destruct (code c =? 48)%N eqn:H0.
  - intros [= <-]. apply eats_char; [|apply eats_refl].
    apply digit_number_char. unfold is_digit.
    apply N.eqb_eq in H0. now rewrite H0.
  - destruct (is_digit c) eqn:Hc; [|discriminate].
    intros [= <-]. apply eats_char; [now apply digit_number_char | apply eats_skip_digits].
Qed.

Lemma eats_number_frac s s' : number_frac s = Some s' -> eats s s'.
Proof.
  destruct s as [ | c s ]; simpl.
  - intros [= <-]. apply eats_refl.
  - destruct (code c =? 46)%N eqn:Hc.
    + intros H. apply eats_char; [|now apply eats_digits1].
      unfold is_number_char. rewrite Hc. now rewrite !orb_true_r.
    + intros [= <-]. apply eats_refl.
Qed.

Lemma eats_number_exp s s' : number_exp s = Some s' -> eats s s'.
Proof.
  destruct s as [ | c s ]; simpl.
  - intros [= <-]. apply eats_refl.
  - destruct ((code c =? 101)%N || (code c =? 69)%N) eqn:Hc.
    + assert (Hnc : is_number_char c = true).
      { unfold is_number_char. apply orb_true_iff in Hc as [-> | ->];
          now rewrite ?orb_true_r. }
      destruct s as [ | c2 s ]; [discriminate|].
      destruct ((code c2 =? 43)%N || (code c2 =? 45)%N) eqn:Hc2.
      * intros H. apply eats_char; [exact Hnc|].
        apply eats_char; [|now apply eats_digits1].
        unfold is_number_char. apply orb_true_iff in Hc2 as [-> | ->];
          now rewrite ?orb_true_r.
      * intros H. apply eats_char; [exact Hnc | now apply eats_digits1].
    + intros [= <-]. apply eats_refl.
Qed.

Lemma number_literal_chars s :
  is_number_literal s = true -> all_number_chars s = true /\ s <> EmptyString.
Proof.
  unfold is_number_literal. intros H.
  destruct (number_int (number_sign s)) as [s1|] eqn:H1; [|discriminate].
  destruct (number_frac s1) as [s2|] eqn:H2; [|discriminate].
  destruct (number_exp s2) as [[ | ? ?]|] eqn:H3; try discriminate.
  split.
  - assert (He : eats s EmptyString).
    { eapply eats_trans; [apply eats_number_sign|].
      eapply eats_trans; [apply eats_number_int, H1|].
      eapply eats_trans; [apply eats_number_frac, H2|].
      apply eats_number_exp, H3. }
    destruct He as [p [-> Hp]].
    replace (p ++ "") with p; [exact Hp|].
    clear. induction p; simpl; congruence.
  - intros ->. discriminate.
Qed.

Lemma span_number_serialized p k :
  all_number_chars p = true -> boundary k = true ->
  span_number (p ++ k) = (p, k).
Proof.
  intros Hp Hk. induction p as [ | c p IH ]; simpl in *.
  - destruct k as [ | c k ]; [reflexivity|]. simpl in *.
    now destruct (is_number_char c).
  - apply andb_true_iff in Hp as [-> Hp]. now rewrite IH.
Qed.
(** *** Values are read back *)

Lemma serialize_array v vs k :
  serialize (JArray (v :: vs)) k =
  String "[" (serialize v (serialize_elements vs k)).
Proof.
  simpl. do 2 f_equal.
  induction vs as [ | v' vs IH ]; simpl; [reflexivity | now rewrite IH].
Qed.

Lemma serialize_object key v ms k :
  serialize (JObject ((key, v) :: ms)) k =
  String "{" (QuoteJSONString key
                (String ":" (serialize v (serialize_members ms k)))).
Proof.
  simpl. do 4 f_equal.
  induction ms as [ | [key' v'] ms IH ]; simpl; [reflexivity | now rewrite IH].
Qed.

Lemma number_char_head c :
  is_number_char c = true ->
  is_ws c = false /\
  (code c =? 123)%N = false /\ (code c =? 91)%N = false /\
  (code c =? 34)%N = false /\ (code c =? 116)%N = false /\
  (code c =? 102)%N = false /\ (code c =? 110)%N = false /\
  (code c =? 93)%N = false.
Proof.
  destruct c as [[] [] [] [] [] [] [] []]; cbn; intros H;
    try discriminate H; repeat split; reflexivity.
Qed.

Lemma number_literal_head literal k :
  is_number_literal literal = true ->
  exists c s, literal ++ k = String c s /\ is_number_char c = true.
Proof.
  intros H. destruct (number_literal_chars _ H) as [Hall Hne].
  destruct literal as [ | c s ]; [congruence|].
  exists c, (s ++ k). split; [reflexivity|].
  simpl in Hall. now apply andb_true_iff in Hall as [-> _].
Qed.

(** The text of a value starts with a character that is neither white
    space nor a closing bracket. *)
Lemma serialize_head v k :
  representable v = true ->
  exists c s, serialize v k = String c s /\
              is_ws c = false /\ (code c =? 93)%N = false.
Proof.
  intros Hv.
  destruct v as [ | [|] | literal | s | [ | v vs ] | [ | [key v] ms ] ];
    try (eexists _, _; split; [reflexivity | split; reflexivity]).
  destruct (number_literal_head literal k Hv) as (c & s & Heq & Hc).
  exists c, s. split; [exact Heq|].
  destruct (number_char_head c Hc) as (? & _ & _ & _ & _ & _ & _ & ?). now split.
Qed.

Lemma parse_number_serialized literal k :
  is_number_literal literal = true -> boundary k = true ->
  parse_number (literal ++ k) = Some (JNumber literal, k).
Proof.
  intros Hlit Hk. unfold parse_number.
  destruct (number_literal_chars _ Hlit) as [Hall _].
  now rewrite (span_number_serialized _ _ Hall Hk), Hlit.
Qed.

Lemma parse_elements_serialize vs :
  Forall reads_back vs -> forallb representable vs = true ->
  forall v, reads_back v -> representable v = true ->
  forall n k,
    S (fuel_for v + fold_right (fun v n => S (fuel_for v + n)) 0 vs) <= n ->
    boundary k = true ->
    parse_elements n (serialize v (serialize_elements vs k)) = Some (v :: vs, k).
Proof.
  induction 1 as [ | v' vs Hv' Hvs IH ]; intros Hrep v Hv Hrv n k Hn Hk;
    (destruct n as [ | n ]; [lia|]); simpl in Hn |- *.
  - rewrite Hv by (trivial || lia). reflexivity.
  - apply andb_true_iff in Hrep as [Hrv' Hrep].
    rewrite Hv by (trivial || lia). simpl.
    rewrite IH by (trivial || lia). reflexivity.
Qed.

Lemma parse_members_serialize ms :
  Forall (fun m => reads_back (snd m)) ms ->
  forallb (fun m => representable (snd m)) ms = true ->
  forall key v, reads_back v -> representable v = true ->
  forall n k,
    S (fuel_for v + fold_right (fun m n => S (fuel_for (snd m) + n)) 0 ms) <= n ->
    boundary k = true ->
    parse_members n
      (QuoteJSONString key (String ":" (serialize v (serialize_members ms k))))
    = Some ((key, v) :: ms, k).
Proof.
  induction 1 as [ | [key' v'] ms Hv' Hms IH ]; intros Hrep key v Hv Hrv n k Hn Hk;
    (destruct n as [ | n ]; [lia|]); simpl in Hn |- *;
    rewrite parse_chars_quote_chars; simpl.
  - rewrite Hv by (trivial || lia). reflexivity.
  - apply andb_true_iff in Hrep as [Hrv' Hrep]. simpl in Hrv'.
    rewrite Hv by (trivial || lia). simpl.
    rewrite IH by (trivial || lia). reflexivity.
Qed.

Lemma parse_value_serialize v : reads_back v.
Proof.
  induction v as [ | b | literal | s | vs IH | ms IH ] using JSON_induction;
    intros Hrep n k Hn Hk; (destruct n as [ | n ]; [simpl in Hn; lia|]).
  - reflexivity.
  - destruct b; reflexivity.
  - simpl in Hrep. simpl serialize.
    destruct (number_literal_head literal k Hrep) as (c & s & Heq & Hc).
    destruct (number_char_head c Hc) as (Hws & H1 & H2 & H3 & H4 & H5 & H6 & _).
    rewrite <- (parse_number_serialized literal k Hrep Hk).
    rewrite Heq. simpl. rewrite Hws, H1, H2, H3, H4, H5, H6. reflexivity.
  - simpl. now rewrite parse_chars_quote_chars.
  - destruct vs as [ | v vs ]; [reflexivity|].
    rewrite serialize_array. simpl in Hrep, Hn.
    apply andb_true_iff in Hrep as [Hrv Hrep].
    inversion IH as [ | ? ? Hv Hvs ]; subst.
    remember (serialize v (serialize_elements vs k)) as text eqn:Htext.
    simpl.
    destruct (serialize_head v (serialize_elements vs k) Hrv) as (c & s & Heq & Hws & Hc).
    rewrite <- Htext in Heq. rewrite Heq. simpl. rewrite Hws, Hc.
    rewrite <- Heq, Htext.
    rewrite (parse_elements_serialize vs) by (trivial || lia). reflexivity.
  - destruct ms as [ | [key v] ms ]; [reflexivity|].
    rewrite serialize_object. simpl in Hrep, Hn.
    apply andb_true_iff in Hrep as [Hrv Hrep].
    inversion IH as [ | ? ? Hv Hvs ]; subst. simpl in Hv.
    remember (String ":" (serialize v (serialize_members ms k))) as text eqn:Htext.
    simpl. rewrite Htext.
    fold (QuoteJSONString key (String ":" (serialize v (serialize_members ms k)))).
    rewrite (parse_members_serialize ms) by (trivial || lia). reflexivity.
Qed.

(** *** The bound of [JSON.parse] is large enough *)

Lemma length_append s k :
  String.length (s ++ k) = String.length s + String.length k.
Proof. induction s as [ | c s IH ]; simpl; [reflexivity | now rewrite IH]. Qed.

Lemma quote_char_length c k :
  S (String.length k) <= String.length (quote_char c k).
Proof.
  unfold quote_char.
  repeat match goal with
         | |- context [if ?b then _ else _] => destruct b
         end; simpl; lia.
Qed.

Lemma quote_chars_length s k :
  S (String.length k) <= String.length (quote_chars s k).
Proof.
  induction s as [ | c s IH ]; simpl; [lia|].
  pose proof (quote_char_length c (quote_chars s k)). lia.
Qed.

Lemma serialize_length v :
  representable v = true ->
  forall k, fuel_for v + String.length k <= String.length (serialize v k).
Proof.
  induction v as [ | b | literal | s | vs IH | ms IH ] using JSON_induction;
    intros Hrep k.
  - simpl. lia.
  - destruct b; simpl; lia.
  - simpl in *. rewrite length_append.
    destruct (number_literal_chars _ Hrep) as [_ Hne].
    destruct literal; [congruence | simpl; lia].
  - simpl. pose proof (quote_chars_length s k). lia.
  - destruct vs as [ | v vs ]; [simpl; lia|].
    rewrite serialize_array. simpl in Hrep |- *.
    apply andb_true_iff in Hrep as [Hrv Hrep].
    inversion IH as [ | ? ? Hv Hvs ]; subst.
    specialize (Hv Hrv (serialize_elements vs k)).
    enough (S (fold_right (fun v n => S (fuel_for v + n)) 0 vs + String.length k)
            <= String.length (serialize_elements vs k)) by lia.
    clear Hv Hrv IH. induction Hvs as [ | v' vs Hv' _ IHvs ]; simpl in *; [lia|].
    apply andb_true_iff in Hrep as [Hrv' Hrep].
    specialize (Hv' Hrv' (serialize_elements vs k)).
    specialize (IHvs Hrep). lia.
  - destruct ms as [ | [key v] ms ]; [simpl; lia|].
    rewrite serialize_object. simpl in Hrep |- *.
    apply andb_true_iff in Hrep as [Hrv Hrep].
    inversion IH as [ | ? ? Hv Hvs ]; subst. simpl in Hv.
    specialize (Hv Hrv (serialize_members ms k)).
    pose proof (quote_chars_length key
                  (String ":" (serialize v (serialize_members ms k)))) as Hkey.
    simpl in Hkey.
    enough (S (fold_right (fun m n => S (fuel_for (snd m) + n)) 0 ms + String.length k)
            <= String.length (serialize_members ms k)) by lia.
    clear Hv Hrv IH Hkey. induction Hvs as [ | [key' v'] ms Hv' _ IHms ]; simpl in *; [lia|].
    apply andb_true_iff in Hrep as [Hrv' Hrep].
    specialize (Hv' Hrv' (serialize_members ms k)).
    specialize (IHms Hrep).
    pose proof (quote_chars_length key'
                  (String ":" (serialize v' (serialize_members ms k)))) as Hkey.
    simpl in Hkey. lia.
Qed.

(** [JSON.parse] undoes [JSON.stringify]. *)
Lemma JSON_parse_stringify v :
  representable v = true -> JSON_parse (JSON_stringify v) = Some v.
Proof.
  intros Hrep. unfold JSON_parse, JSON_stringify.
  rewrite (parse_value_serialize v Hrep) ; [reflexivity | | reflexivity].
  pose proof (serialize_length v Hrep EmptyString). lia.
Qed.

(** *** The bound of [parse_value] is never reached *)

Lemma skip_ws_length s : String.length (skip_ws s) <= String.length s.
Proof.
  induction s as [ | c s IH ]; simpl; [lia|].
  destruct (is_ws c); simpl; lia.
Qed.

Lemma skip_ws_head s c s' :
  skip_ws s = String c s' -> String.length s' < String.length s.
Proof.
  intros H. pose proof (skip_ws_length s) as Hl. rewrite H in Hl. simpl in Hl. lia.
Qed.

Lemma utf8_length u s : String.length s < String.length (utf8 u s).
Proof.
  unfold utf8. destruct (u <? 128)%N; [simpl; lia|].
  destruct (u <? 2048)%N; [simpl; lia|].
  destruct (u <? 65536)%N; simpl; lia.
Qed.

Lemma parse_chars_length s str rest :
  parse_chars s = Some (str, rest) -> String.length rest < String.length s.
Proof.
  remember (String.length s) as len eqn:Hlen.
  assert (Hle : String.length s <= len) by lia. clear Hlen.
  revert s str rest Hle.
  induction len as [ | len IH ]; intros s str rest Hle;
    (destruct s as [ | c s ]; [discriminate|]); simpl in Hle; [lia|].
  cbn [parse_chars].
  destruct (code c =? 34)%N.
  { intros [= <- <-]. simpl. lia. }
  destruct (code c =? 92)%N.
  - destruct s as [ | e s ]; [discriminate|].
    destruct (code e =? 117)%N.
    + destruct s as [ | h1 [ | h2 [ | h3 [ | h4 s ] ] ] ]; try discriminate.
      destruct (hex4 h1 h2 h3 h4) as [u|]; [|discriminate].
      assert (Hsingle :
        match parse_chars s with
        | Some (str', rest') => Some (utf8 u str', rest')
        | None => None
        end = Some (str, rest) ->
        String.length rest < S len).
      { destruct (parse_chars s) as [[str' rest']|] eqn:Hs; [|discriminate].
        intros [= <- <-]. apply IH in Hs; simpl in *; lia. }
      destruct (is_high_surrogate u); [|exact Hsingle].
      destruct s as [ | b [ | e' [ | l1 [ | l2 [ | l3 [ | l4 s4 ] ] ] ] ] ];
        try exact Hsingle.
      destruct (low_surrogate b e' l1 l2 l3 l4); [|exact Hsingle].
      destruct (parse_chars s4) as [[str' rest']|] eqn:Hs; [|discriminate].
      intros [= <- <-]. apply IH in Hs; simpl in *; lia.
    + destruct (simple_escape e); [|discriminate].
      destruct (parse_chars s) as [[str' rest']|] eqn:Hs; [|discriminate].
      intros [= <- <-]. apply IH in Hs; simpl in *; lia.
  - destruct (code c <? 32)%N; [discriminate|].
    destruct (parse_chars s) as [[str' rest']|] eqn:Hs; [|discriminate].
    intros [= <- <-]. apply IH in Hs; simpl in *; lia.
Qed.

Lemma span_number_length s tok rest :
  span_number s = (tok, rest) ->
  String.length s = String.length tok + String.length rest.
Proof.
  revert tok rest. induction s as [ | c s IH ]; intros tok rest; simpl.
  - now intros [= <- <-].
  - destruct (is_number_char c).
    + destruct (span_number s) as [tok' rest']. intros [= <- <-].
      simpl. now rewrite (IH tok' rest').
    + now intros [= <- <-].
Qed.

Lemma parse_number_length s v rest :
  parse_number s = Some (v, rest) -> String.length rest < String.length s.
Proof.
  unfold parse_number. destruct (span_number s) as [tok rest'] eqn:Hs.
  destruct (is_number_literal tok) eqn:Hlit; [|discriminate].
  intros [= <- <-]. apply span_number_length in Hs.
  destruct (number_literal_chars _ Hlit) as [_ Hne].
  destruct tok; [congruence | simpl in Hs; lia].
Qed.

Lemma strip_prefix_length word s rest :
  strip_prefix word s = Some rest ->
  String.length s = String.length word + String.length rest.
Proof.
  revert s. induction word as [ | a word IH ]; intros s; simpl.
  - now intros [= <-].
  - destruct s as [ | b s ]; [discriminate|].
    destruct (Ascii.eqb a b); [|discriminate].
    intros H. simpl. now rewrite (IH _ H).
Qed.

Lemma expect_length word v s v' rest :
  word <> EmptyString ->
  expect word v s = Some (v', rest) -> String.length rest < String.length s.
Proof.
  unfold expect. intros Hw.
  destruct (strip_prefix word s) as [rest'|] eqn:Hs; [|discriminate].
  intros [= <- <-]. apply strip_prefix_length in Hs.
  destruct word; [congruence | simpl in Hs; lia].
Qed.

(** Each of the three readers consumes some text. *)
Lemma parse_value_length n :
  (forall s v rest, parse_value n s = Some (v, rest) ->
                    String.length rest < String.length s) /\
  (forall s vs rest, parse_elements n s = Some (vs, rest) ->
                     String.length rest < String.length s) /\
  (forall s ms rest, parse_members n s = Some (ms, rest) ->
                     String.length rest < String.length s).
Proof.
  induction n as [ | n (IHv & IHe & IHm) ]; [repeat split; discriminate|].
  repeat split; intros s.
  - intros v rest. cbn [parse_value].
    destruct (skip_ws s) as [ | c s1 ] eqn:Hs; [discriminate|].
    apply skip_ws_head in Hs.
    destruct (code c =? 123)%N.
    { destruct (skip_ws s1) as [ | c' s2 ] eqn:Hs1; [discriminate|].
      apply skip_ws_head in Hs1.
      destruct (code c' =? 125)%N; [intros [= <- <-]; lia|].
      destruct (parse_members n s1) as [[ms r]|] eqn:Hm; [|discriminate].
      intros [= <- <-]. apply IHm in Hm. lia. }
    destruct (code c =? 91)%N.
    { destruct (skip_ws s1) as [ | c' s2 ] eqn:Hs1; [discriminate|].
      apply skip_ws_head in Hs1.
      destruct (code c' =? 93)%N; [intros [= <- <-]; lia|].
      destruct (parse_elements n s1) as [[vs r]|] eqn:He; [|discriminate].
      intros [= <- <-]. apply IHe in He. lia. }
    destruct (code c =? 34)%N.
    { destruct (parse_chars s1) as [[str r]|] eqn:Hc; [|discriminate].
      intros [= <- <-]. apply parse_chars_length in Hc. lia. }
    destruct (code c =? 116)%N.
    { intros H. apply expect_length in H; [simpl in H; lia | discriminate]. }
    destruct (code c =? 102)%N.
    { intros H. apply expect_length in H; [simpl in H; lia | discriminate]. }
    destruct (code c =? 110)%N.
    { intros H. apply expect_length in H; [simpl in H; lia | discriminate]. }
    intros H. apply parse_number_length in H. simpl in H. lia.
  - intros vs rest. cbn [parse_elements].
    destruct (parse_value n s) as [[v s1]|] eqn:Hv; [|discriminate].
    apply IHv in Hv.
    destruct (skip_ws s1) as [ | c s2 ] eqn:Hs1; [discriminate|].
    apply skip_ws_head in Hs1.
    destruct (code c =? 44)%N.
    { destruct (parse_elements n s2) as [[vs' r]|] eqn:He; [|discriminate].
      intros [= <- <-]. apply IHe in He. lia. }
    destruct (code c =? 93)%N; [|discriminate].
    intros [= <- <-]. lia.
  - intros ms rest. cbn [parse_members].
    destruct (skip_ws s) as [ | c s1 ] eqn:Hs; [discriminate|].
    apply skip_ws_head in Hs.
    destruct (code c =? 34)%N; [|discriminate].
    destruct (parse_chars s1) as [[key s2]|] eqn:Hk; [|discriminate].
    apply parse_chars_length in Hk.
    destruct (skip_ws s2) as [ | c' s3 ] eqn:Hs2; [discriminate|].
    apply skip_ws_head in Hs2.
    destruct (code c' =? 58)%N; [|discriminate].
    destruct (parse_value n s3) as [[v s4]|] eqn:Hv; [|discriminate].
    apply IHv in Hv.
    destruct (skip_ws s4) as [ | c'' s5 ] eqn:Hs4; [discriminate|].
    apply skip_ws_head in Hs4.
    destruct (code c'' =? 44)%N.
    { destruct (parse_members n s5) as [[ms' r]|] eqn:Hm; [|discriminate].
      intros [= <- <-]. apply IHm in Hm. lia. }
    destruct (code c'' =? 125)%N; [|discriminate].
    intros [= <- <-]. lia.
Qed.

(** With a bound above twice the length of the text, the result does not
    depend on the bound. *)
Lemma parse_value_bounds n :
  (forall m s, 2 * String.length s < n -> 2 * String.length s < m ->
               parse_value n s = parse_value m s) /\
  (forall m s, 2 * String.length s + 1 < n -> 2 * String.length s + 1 < m ->
               parse_elements n s = parse_elements m s) /\
  (forall m s, 2 * String.length s + 1 < n -> 2 * String.length s + 1 < m ->
               parse_members n s = parse_members m s).
Proof.
  induction n as [ | n (IHv & IHe & IHm) ]; [repeat split; intros; lia|].
  repeat split; intros m s Hn Hm; (destruct m as [ | m ]; [lia|]).
  - cbn [parse_value].
    destruct (skip_ws s) as [ | c s1 ] eqn:Hs; [reflexivity|].
    apply skip_ws_head in Hs.
    destruct (code c =? 123)%N.
    { destruct (skip_ws s1) as [ | c' s2 ]; [reflexivity|].
      destruct (code c' =? 125)%N; [reflexivity|].
      now rewrite (IHm m s1) by lia. }
    destruct (code c =? 91)%N; [|reflexivity].
    destruct (skip_ws s1) as [ | c' s2 ]; [reflexivity|].
    destruct (code c' =? 93)%N; [reflexivity|].
    now rewrite (IHe m s1) by lia.
  - cbn [parse_elements]. rewrite (IHv m s) by lia.
    destruct (parse_value m s) as [[v s1]|] eqn:Hv; [|reflexivity].
    apply (proj1 (parse_value_length m)) in Hv.
    destruct (skip_ws s1) as [ | c s2 ] eqn:Hs1; [reflexivity|].
    apply skip_ws_head in Hs1.
    destruct (code c =? 44)%N; [|reflexivity].
    now rewrite (IHe m s2) by lia.
  - cbn [parse_members].
    destruct (skip_ws s) as [ | c s1 ] eqn:Hs; [reflexivity|].
    apply skip_ws_head in Hs.
    destruct (code c =? 34)%N; [|reflexivity].
    destruct (parse_chars s1) as [[key s2]|] eqn:Hk; [|reflexivity].
    apply parse_chars_length in Hk.
    destruct (skip_ws s2) as [ | c' s3 ] eqn:Hs2; [reflexivity|].
    apply skip_ws_head in Hs2.
    destruct (code c' =? 58)%N; [|reflexivity].
    rewrite (IHv m s3) by lia.
    destruct (parse_value m s3) as [[v s4]|] eqn:Hv; [|reflexivity].
    apply (proj1 (parse_value_length m)) in Hv.
    destruct (skip_ws s4) as [ | c'' s5 ] eqn:Hs4; [reflexivity|].
    apply skip_ws_head in Hs4.
    destruct (code c'' =? 44)%N; [|reflexivity].
    now rewrite (IHm m s5) by lia.
Qed.

(** [JSON.parse] would give the same result with any larger bound. *)
Lemma parse_value_bound text n :
  2 * String.length text < n ->
  parse_value n text = parse_value (S (2 * String.length text)) text.
Proof.
  intros Hn. apply (proj1 (parse_value_bounds n)); lia.
Qed.

(** ** The envelope codec *)

(** C7. The codec is symmetric: for every event name and every payload
    representable in the wire format, decoding the frame that [send] builds
    from them gives the envelope with that event name and that payload.
    Both directions are functions of their arguments, so the codec is
    deterministic. *)
Theorem decode_encode (eventName : string) (data : JSON) :
  representable data = true ->
  decode (encode eventName (Some data))
  = Some {| type := eventName; detail := data |}.
Proof.
  intros Hrep. unfold decode, encode.
  rewrite JSON_parse_stringify by (simpl; now rewrite Hrep).
  reflexivity.
Qed.

Lemma decode_encode_witness :
  decode (encode "status"
            (Some (JArray [JBool true; JNumber "12"; JNumber "-0.5e+3";
                           JString "M2"; JObject [("k", JNull)]])))
  = Some {| type := "status";
            detail := JArray [JBool true; JNumber "12"; JNumber "-0.5e+3";
                              JString "M2"; JObject [("k", JNull)]] |}.
Proof. apply decode_encode. reflexivity. Defined.

(** A frame sent without a payload, as [send('ping')] does, comes back
    with the default [detail]. *)
Lemma payload_left_out_reads_null (eventName : string) :
  decode (encode eventName None) = Some {| type := eventName; detail := JNull |}.
Proof.
  unfold decode, encode.
  rewrite JSON_parse_stringify by reflexivity.
  reflexivity.
Qed.

(** ** The provider *)

Local Open Scope list_scope.
Local Open Scope nat_scope.

(** *** Projections of a trace *)

Lemma observed_app i tr1 tr2 :
  observed i (tr1 ++ tr2) = observed i tr1 ++ observed i tr2.
Proof.
  induction tr1 as [ | x tr1 IH ]; simpl; [reflexivity|].
  destruct x; try exact IH. destruct (Nat.eqb i listener); simpl; now rewrite IH.
Qed.

Lemma dispatched_app tr1 tr2 :
  dispatched (tr1 ++ tr2) = dispatched tr1 ++ dispatched tr2.
Proof.
  induction tr1 as [ | x tr1 IH ]; simpl; [reflexivity|].
  destruct x; simpl; now rewrite IH.
Qed.

Lemma pushed_app tr1 tr2 : pushed (tr1 ++ tr2) = pushed tr1 ++ pushed tr2.
Proof.
  induction tr1 as [ | x tr1 IH ]; simpl; [reflexivity|].
  destruct x; simpl; now rewrite IH.
Qed.

Lemma drained_app tr1 tr2 : drained (tr1 ++ tr2) = drained tr1 ++ drained tr2.
Proof.
  induction tr1 as [ | x tr1 IH ]; simpl; [reflexivity|].
  destruct x; simpl; now rewrite IH.
Qed.

Lemma reported_app tr1 tr2 :
  reported (tr1 ++ tr2) = reported tr1 ++ reported tr2.
Proof.
  induction tr1 as [ | x tr1 IH ]; simpl; [reflexivity|].
  destruct x; simpl; now rewrite IH.
Qed.

Lemma gate_after_app b tr1 tr2 :
  gate_after b (tr1 ++ tr2) = gate_after (gate_after b tr1) tr2.
Proof.
  revert b. induction tr1 as [ | x tr1 IH ]; intros b; simpl; [reflexivity|].
  destruct x; apply IH.
Qed.

(** *** Every call advances the state *)

Lemma advances_refl st : advances st st.
Proof.
  exists []. unfold advances_by. simpl. now rewrite !app_nil_r.
Qed.

Lemma advances_by_trans new1 new2 st1 st2 st3 :
  advances_by new1 st1 st2 -> advances_by new2 st2 st3 ->
  advances_by (new1 ++ new2) st1 st3.
Proof.
  intros (Ht1 & Hq1 & Hf1) (Ht2 & Hq2 & Hf2). repeat split.
  - now rewrite Ht2, Ht1, app_assoc.
  - rewrite pushed_app, drained_app, app_assoc, Hq1, <- !app_assoc.
    now rewrite Hq2.
  - now rewrite gate_after_app, <- Hf1.
Qed.

Lemma advances_trans st1 st2 st3 :
  advances st1 st2 -> advances st2 st3 -> advances st1 st3.
Proof.
  intros [new1 H1] [new2 H2]. exists (new1 ++ new2).
  eapply advances_by_trans; eassumption.
Qed.

Lemma advances_by_push e st :
  advances_by [Pushed e] st
    (record (Pushed e) (set_frozenEventQ (frozenEventQ st ++ [e]) st)).
Proof. repeat split. Qed.

Lemma advances_by_shift e queue st :
  frozenEventQ st = e :: queue ->
  advances_by [Drained e] st (record (Drained e) (set_frozenEventQ queue st)).
Proof. intros Hq. repeat split. simpl. now rewrite Hq, app_nil_r. Qed.

Lemma advances_by_gate b st :
  advances_by [Gate b] st (record (Gate b) (set_frozen b st)).
Proof. repeat split. simpl. now rewrite app_nil_r. Qed.

Lemma advances_by_record x st :
  outward x = true -> advances_by [x] st (record x st).
Proof.
  intros Hx. destruct x; try discriminate Hx; repeat split;
    simpl; now rewrite app_nil_r.
Qed.

Section Advances.

Variable listeners : list Listener.
Variable call : Call -> M2State -> option M2State.
Hypothesis call_advances :
  forall c st st', call c st = Some st' -> advances st st'.

Lemma run_calls_advances cs st st' :
  run_calls call cs st = Some st' -> advances st st'.
Proof.
  revert st. induction cs as [ | c cs IH ]; intros st; simpl.
  - intros [= <-]. apply advances_refl.
  - destruct (call c st) as [st1|] eqn:Hc; [|discriminate].
    intros H. eapply advances_trans; [eapply call_advances, Hc | now apply IH].
Qed.

Lemma invoke_advances ls i e st st' :
  invoke call i ls e st = Some st' -> advances st st'.
Proof.
  revert i st. induction ls as [ | l ls IH ]; intros i st; simpl.
  - intros [= <-]. apply advances_refl.
  - destruct (String.eqb (on l) (type e)); [|apply IH].
    destruct (run_calls call _ _) as [st1|] eqn:Hr; [|discriminate].
    intros H.
    eapply advances_trans; [eexists; now apply (advances_by_record (Invoked i e))|].
    eapply advances_trans; [eapply run_calls_advances, Hr | eapply IH, H].
Qed.

Lemma dispatchEvent_advances e st st' :
  dispatchEvent listeners call e st = Some st' -> advances st st'.
Proof. apply invoke_advances. Qed.

Lemma ws_message_advances data st st' :
  ws_message listeners call data st = Some st' -> advances st st'.
Proof.
  unfold ws_message, handleMessage.
  destruct (decode data) as [e|].
  - destruct (frozen st).
    + intros [= <-]. eexists. apply advances_by_push.
    + destruct (dispatchEvent _ _ _ _) as [st1|] eqn:Hd; [|discriminate].
      intros [= <-].
      eapply advances_trans; [eexists; now apply (advances_by_record (Dispatched e))|].
      eapply dispatchEvent_advances, Hd.
  - intros [= <-]. eexists. now apply advances_by_record.
Qed.

Lemma drain_advances k st st' :
  drain listeners call k st = Some st' -> advances st st'.
Proof.
  revert st. induction k as [ | k IH ]; intros st; simpl;
    destruct (frozenEventQ st) as [ | e queue ] eqn:Hq;
    try (intros [= <-]; apply advances_refl); try discriminate.
  destruct (dispatchEvent _ _ _ _) as [st1|] eqn:Hd; [|discriminate].
  intros H.
  eapply advances_trans; [eexists; apply (advances_by_shift e queue st Hq)|].
  eapply advances_trans; [eapply dispatchEvent_advances, Hd | apply IH, H].
Qed.

Lemma drain_empties k st st' :
  drain listeners call k st = Some st' -> frozenEventQ st' = [].
Proof.
  revert st. induction k as [ | k IH ]; intros st; simpl;
    destruct (frozenEventQ st) as [ | e queue ] eqn:Hq;
    try (intros [= <-]; exact Hq); try discriminate.
  destruct (dispatchEvent _ _ _ _) as [st1|]; [|discriminate].
  apply IH.
Qed.

Lemma freeze_advances k b st st' :
  freeze listeners call k b st = Some st' -> advances st st'.
Proof.
  unfold freeze. simpl. intros H.
  eapply advances_trans; [eexists; apply (advances_by_gate b)|].
  destruct b; simpl in H.
  - injection H as <-. apply advances_refl.
  - eapply drain_advances, H.
Qed.

End Advances.

Lemma call_advances listeners n c st st' :
  call listeners n c st = Some st' -> advances st st'.
Proof.
  revert c st st'. induction n as [ | n IH ]; intros c st st'; simpl;
    [discriminate|].
  destruct c as [ b | event data | data ].
  - now apply freeze_advances.
  - intros [= <-]. eexists. now apply advances_by_record.
  - now apply ws_message_advances.
Qed.

(** *** A flowing gate has an empty queue *)

Section Settled.

Variable listeners : list Listener.
Variable call : Call -> M2State -> option M2State.
Hypothesis call_settled :
  forall c st st', settled st -> call c st = Some st' -> settled st'.

Lemma run_calls_settled cs st st' :
  settled st -> run_calls call cs st = Some st' -> settled st'.
Proof.
  revert st. induction cs as [ | c cs IH ]; intros st Hst; simpl.
  - now intros [= <-].
  - destruct (call c st) as [st1|] eqn:Hc; [|discriminate].
    apply IH. eapply call_settled; eassumption.
Qed.

Lemma invoke_settled ls i e st st' :
  settled st -> invoke call i ls e st = Some st' -> settled st'.
Proof.
  revert i st. induction ls as [ | l ls IH ]; intros i st Hst; simpl.
  - now intros [= <-].
  - destruct (String.eqb (on l) (type e)); [|now apply IH].
    destruct (run_calls call _ _) as [st1|] eqn:Hr; [|discriminate].
    apply IH. eapply run_calls_settled; [|exact Hr]. exact Hst.
Qed.

Lemma ws_message_settled data st st' :
  settled st -> ws_message listeners call data st = Some st' -> settled st'.
Proof.
  unfold ws_message, handleMessage. intros Hst.
  destruct (decode data) as [e|].
  - destruct (frozen st) eqn:Hf.
    + intros [= <-]. unfold settled. simpl. congruence.
    + destruct (dispatchEvent _ _ _ _) as [st1|] eqn:Hd; [|discriminate].
      intros [= <-]. eapply invoke_settled; [|exact Hd]. exact Hst.
  - intros [= <-]. exact Hst.
Qed.

Lemma freeze_settled k b st st' :
  freeze listeners call k b st = Some st' -> settled st'.
Proof.
  unfold freeze. destruct b; simpl.
  - intros [= <-]. unfold settled. simpl. discriminate.
  - intros H _. eapply drain_empties, H.
Qed.

End Settled.

Lemma call_settled listeners n c st st' :
  settled st -> call listeners n c st = Some st' -> settled st'.
Proof.
  revert c st st'. induction n as [ | n IH ]; intros c st st' Hst; simpl;
    [discriminate|].
  destruct c as [ b | event data | data ].
  - apply freeze_settled.
  - now intros [= <-].
  - now apply ws_message_settled.
Qed.

Lemma reachable_settled listeners st : reachable listeners st -> settled st.
Proof.
  induction 1 as [ | n c st st' _ IH Hc ].
  - intros _. reflexivity.
  - eapply call_settled; eassumption.
Qed.

(** *** A larger bound gives the same result *)

Section Monotone.

Variable listeners : list Listener.
Variables call1 call2 : Call -> M2State -> option M2State.
Hypothesis call_mono :
  forall c st st', call1 c st = Some st' -> call2 c st = Some st'.

Lemma run_calls_mono cs st st' :
  run_calls call1 cs st = Some st' -> run_calls call2 cs st = Some st'.
Proof.
  revert st. induction cs as [ | c cs IH ]; intros st; simpl; [trivial|].
  destruct (call1 c st) as [st1|] eqn:Hc; [|discriminate].
  rewrite (call_mono _ _ _ Hc). apply IH.
Qed.

Lemma invoke_mono ls i e st st' :
  invoke call1 i ls e st = Some st' -> invoke call2 i ls e st = Some st'.
Proof.
  revert i st. induction ls as [ | l ls IH ]; intros i st; simpl; [trivial|].
  destruct (String.eqb (on l) (type e)); [|apply IH].
  destruct (run_calls call1 _ _) as [st1|] eqn:Hr; [|discriminate].
  rewrite (run_calls_mono _ _ _ Hr). apply IH.
Qed.

Lemma ws_message_mono data st st' :
  ws_message listeners call1 data st = Some st' ->
  ws_message listeners call2 data st = Some st'.
Proof.
  unfold ws_message, handleMessage, dispatchEvent.
  destruct (decode data) as [e|]; [|trivial].
  destruct (frozen st); [trivial|].
  destruct (invoke call1 _ _ _ _) as [st1|] eqn:Hd; [|discriminate].
  now rewrite (invoke_mono _ _ _ _ _ Hd).
Qed.

Lemma drain_mono k1 k2 st st' :
  k1 <= k2 ->
  drain listeners call1 k1 st = Some st' ->
  drain listeners call2 k2 st = Some st'.
Proof.
  revert k2 st. induction k1 as [ | k1 IH ]; intros k2 st Hk; simpl.
  - destruct (frozenEventQ st) eqn:Hq; [|discriminate].
    intros [= <-]. destruct k2; simpl; now rewrite Hq.
  - destruct k2 as [ | k2 ]; [lia|]. simpl.
    destruct (frozenEventQ st) as [ | e queue ]; [trivial|].
    unfold dispatchEvent.
    destruct (invoke call1 _ _ _ _) as [st1|] eqn:Hd; [|discriminate].
    rewrite (invoke_mono _ _ _ _ _ Hd). apply IH. lia.
Qed.

Lemma freeze_mono k1 k2 b st st' :
  k1 <= k2 ->
  freeze listeners call1 k1 b st = Some st' ->
  freeze listeners call2 k2 b st = Some st'.
Proof.
  unfold freeze. intros Hk. destruct b; simpl; [trivial|].
  now apply drain_mono.
Qed.

End Monotone.

Lemma call_mono listeners n m c st st' :
  n <= m ->
  call listeners n c st = Some st' -> call listeners m c st = Some st'.
Proof.
  revert m c st st'. induction n as [ | n IH ]; intros m c st st' Hnm; simpl;
    [discriminate|].
  destruct m as [ | m ]; [lia|]. simpl.
  assert (Hm : forall c st st', call listeners n c st = Some st' ->
                                call listeners m c st = Some st').
  { intros. apply IH; [lia | assumption]. }
  destruct c as [ b | event data | data ].
  - apply freeze_mono; [exact Hm | lia].
  - trivial.
  - now apply ws_message_mono.
Qed.

Lemma run_mono listeners n m cs st st' :
  n <= m ->
  run listeners n cs st = Some st' -> run listeners m cs st = Some st'.
Proof.
  intros Hnm. apply run_calls_mono. intros. now apply (call_mono listeners n m).
Qed.

(** *** What a listener sees of a dispatch *)

Lemma invoke_silent call ls i e st :
  forallb (fun l => negb (listens l e)) ls = true ->
  invoke call i ls e st = Some st.
Proof.
  revert i. induction ls as [ | l ls IH ]; intros i H; simpl in *; [reflexivity|].
  apply andb_true_iff in H as [Hl H]. unfold listens in Hl.
  destruct (String.eqb (on l) (type e)); [discriminate | now apply IH].
Qed.

Lemma sees_silent ls i j e :
  forallb (fun l => negb (listens l e)) ls = true -> sees i j ls e = [].
Proof.
  revert j. induction ls as [ | l ls IH ]; intros j H; simpl in *; [reflexivity|].
  apply andb_true_iff in H as [Hl H].
  destruct (listens l e); [discriminate|]. simpl. now apply IH.
Qed.

Lemma sees_nth ls i j e :
  sees i j ls e =
  match nth_error ls (i - j) with
  | Some l => if (j <=? i) && listens l e then [e] else []
  | None => []
  end.
Proof.
  revert j. induction ls as [ | l ls IH ]; intros j.
  - simpl. now destruct (i - j).
  - cbn [sees]. rewrite IH. destruct (Nat.compare_spec i j) as [Heq | Hlt | Hgt].
    + subst j. rewrite Nat.sub_diag, Nat.eqb_refl, Nat.leb_refl, andb_true_r.
      replace (S i <=? i) with false by (symmetry; apply Nat.leb_gt; lia).
      replace (i - S i) with 0 by lia. cbn [nth_error andb].
      destruct ls; now rewrite app_nil_r.
    + replace (i =? j) with false by (symmetry; apply Nat.eqb_neq; lia).
      replace (S j <=? i) with false by (symmetry; apply Nat.leb_gt; lia).
      replace (j <=? i) with false by (symmetry; apply Nat.leb_gt; lia).
      replace (i - j) with 0 by lia. rewrite andb_false_r. cbn [nth_error andb app].
      now destruct (nth_error ls (i - S j)).
    + replace (i =? j) with false by (symmetry; apply Nat.eqb_neq; lia).
      replace (S j <=? i) with true by (symmetry; apply Nat.leb_le; lia).
      replace (j <=? i) with true by (symmetry; apply Nat.leb_le; lia).
      replace (i - j) with (S (i - S j)) by lia. rewrite andb_false_r. reflexivity.
Qed.

(** Over a queue, the [i]-th listener sees the events it is registered
    for, in the order of the queue. *)
Lemma sees_queue listeners i l queue :
  nth_error listeners i = Some l ->
  flat_map (sees i 0 listeners) queue = filter (listens l) queue.
Proof.
  intros Hl. induction queue as [ | e queue IH ]; simpl; [reflexivity|].
  rewrite IH, sees_nth, Nat.sub_0_r, Hl. simpl.
  now destruct (listens l e).
Qed.

(** *** Restrained listeners *)

Lemma quietly_refl listeners st : quietly listeners st st.
Proof.
  split; [|reflexivity]. exists []. now rewrite app_nil_r.
Qed.

Lemma appends_silent_trans listeners st1 st2 st3 :
  appends_silent listeners st1 st2 -> appends_silent listeners st2 st3 ->
  appends_silent listeners st1 st3.
Proof.
  intros (ps & Hq & Hps) (ps' & Hq' & Hps'). exists (ps ++ ps'). split.
  - now rewrite Hq', Hq, app_assoc.
  - now rewrite forallb_app, Hps, Hps'.
Qed.

Lemma quietly_trans listeners st1 st2 st3 :
  quietly listeners st1 st2 -> quietly listeners st2 st3 ->
  quietly listeners st1 st3.
Proof.
  intros [Ha Ho] [Ha' Ho']. split.
  - eapply appends_silent_trans; eassumption.
  - intros i. now rewrite Ho', Ho.
Qed.

Lemma quietly_record listeners x st :
  (forall i e, x <> Invoked i e) -> quietly listeners st (record x st).
Proof.
  intros Hx. split.
  - exists []. simpl. now rewrite app_nil_r.
  - intros i. simpl. rewrite observed_app. simpl.
    destruct x; try now rewrite app_nil_r. now destruct (Hx listener e).
Qed.

Section Restrained.

Variable listeners : list Listener.
Hypothesis listeners_restrained : restrained listeners.

Lemma allowed_call c n st :
  allowed listeners c = true ->
  exists st', call listeners (S n) c st = Some st' /\ quietly listeners st st'.
Proof.
  destruct c as [ b | event data | data ]; simpl.
  - intros ->. unfold freeze. simpl. eexists. split; [reflexivity|].
    split; [exists []; simpl; now rewrite app_nil_r|].
    intros i. simpl. rewrite observed_app. simpl. now rewrite app_nil_r.
  - intros _. eexists. split; [reflexivity|]. now apply quietly_record.
  - unfold ws_message, handleMessage.
    destruct (decode data) as [e|].
    + intros He. destruct (frozen st).
      * eexists. split; [reflexivity|]. split.
        -- exists [e]. simpl. now rewrite He.
        -- intros i. simpl. rewrite observed_app. simpl. now rewrite app_nil_r.
      * unfold dispatchEvent. rewrite invoke_silent by exact He.
        eexists. split; [reflexivity|]. now apply quietly_record.
    + intros _. eexists. split; [reflexivity|]. now apply quietly_record.
Qed.

Lemma run_calls_allowed cs n st :
  forallb (allowed listeners) cs = true ->
  exists st', run_calls (call listeners (S n)) cs st = Some st' /\
              quietly listeners st st'.
Proof.
  revert st. induction cs as [ | c cs IH ]; intros st Hcs.
  - exists st. split; [reflexivity | apply quietly_refl].
  - simpl in Hcs. apply andb_true_iff in Hcs as [Hc Hcs].
    destruct (allowed_call c n st Hc) as (st1 & Hst1 & Hq1).
    destruct (IH st1 Hcs) as (st' & Hst' & Hq').
    exists st'. split.
    + cbn [run_calls]. now rewrite Hst1.
    + eapply quietly_trans; eassumption.
Qed.

Lemma invoke_restrained ls :
  (forall l, In l ls -> In l listeners) ->
  forall n j e st,
  exists st',
    invoke (call listeners (S n)) j ls e st = Some st' /\
    appends_silent listeners st st' /\
    forall i, observed i (trace st') = observed i (trace st) ++ sees i j ls e.
Proof.
  induction ls as [ | l ls IH ]; intros Hin n j e st.
  - exists st. split; [reflexivity|]. split.
    + exists []. now rewrite app_nil_r.
    + intros i. simpl. now rewrite app_nil_r.
  - assert (Hls : forall l', In l' ls -> In l' listeners)
      by (intros; apply Hin; now right).
    cbn [invoke sees]. fold (listens l e).
    destruct (listens l e) eqn:Hl.
    + destruct (run_calls_allowed (callback l (trace st) e) n
                  (record (Invoked j e) st)) as (st1 & Hst1 & Ha1 & Ho1).
      { apply listeners_restrained, Hin. now left. }
      destruct (IH Hls n (S j) e st1) as (st' & Hst' & Ha' & Ho').
      exists st'. split; [now rewrite Hst1|]. split.
      * eapply appends_silent_trans; [exact Ha1 | exact Ha'].
      * intros i. rewrite Ho', Ho1. simpl. rewrite observed_app. simpl.
        destruct (Nat.eqb i j); simpl; now rewrite <- ?app_assoc, ?app_nil_r.
    + destruct (IH Hls n (S j) e st) as (st' & Hst' & Ha' & Ho').
      exists st'. repeat split; assumption.
Qed.

Lemma dispatchEvent_restrained n e st :
  exists st',
    dispatchEvent listeners (call listeners (S n)) e st = Some st' /\
    appends_silent listeners st st' /\
    forall i, observed i (trace st')
              = observed i (trace st) ++ sees i 0 listeners e.
Proof. apply invoke_restrained. trivial. Qed.

Lemma sees_appended i ps :
  forallb (silent listeners) ps = true ->
  flat_map (sees i 0 listeners) ps = [].
Proof.
  induction ps as [ | e ps IH ]; simpl; [reflexivity|].
  intros H. apply andb_true_iff in H as [He H].
  now rewrite (sees_silent _ _ _ _ He), IH.
Qed.

Lemma loud_appended queue ps :
  forallb (silent listeners) ps = true ->
  loud listeners (queue ++ ps) = loud listeners queue.
Proof.
  intros H. unfold loud. rewrite filter_app.
  replace (filter _ ps) with (@nil CustomEvent); [now rewrite app_nil_r|].
  induction ps as [ | e ps IH ]; simpl in *; [reflexivity|].
  apply andb_true_iff in H as [-> H]. simpl. now apply IH.
Qed.

(** The drain loop comes to an end, and each listener has then seen the
    events of the queue it is registered for. *)
Lemma drain_restrained st :
  exists k st',
    drain listeners (call listeners 1) k st = Some st' /\
    forall i, observed i (trace st')
              = observed i (trace st)
                ++ flat_map (sees i 0 listeners) (frozenEventQ st).
Proof.
  remember (length (loud listeners (frozenEventQ st))) as c eqn:Hc.
  assert (Hc' : length (loud listeners (frozenEventQ st)) <= c) by lia.
  clear Hc. revert st Hc'.
  induction c as [ | c IHc ]; intros st Hc;
    remember (length (frozenEventQ st)) as len eqn:Hlen;
    assert (Hlen' : length (frozenEventQ st) <= len) by lia;
    clear Hlen; revert st Hc Hlen';
    induction len as [ | len IHlen ]; intros st Hc Hlen;
    destruct (frozenEventQ st) as [ | e queue ] eqn:Hq;
    try (exists 0, st; split; [simpl; now rewrite Hq | intros i; simpl; now rewrite app_nil_r]);
    try (simpl in Hlen; lia).
  - (* no loud event is left *)
    unfold loud in Hc. simpl in Hc.
    destruct (silent listeners e) eqn:He; simpl in Hc; [|lia].
    destruct (IHlen (record (Drained e) (set_frozenEventQ queue st)))
      as (k & st' & Hd & Ho); [exact Hc | simpl in *; lia |].
    exists (S k), st'. split.
    + simpl. rewrite Hq. unfold dispatchEvent. rewrite invoke_silent by exact He.
      exact Hd.
    + intros i. rewrite Ho. simpl. rewrite observed_app. simpl.
      rewrite app_nil_r. now rewrite (sees_silent _ _ _ _ He).
  - unfold loud in Hc. simpl in Hc.
    destruct (silent listeners e) eqn:He; simpl in Hc.
    + destruct (IHlen (record (Drained e) (set_frozenEventQ queue st)))
        as (k & st' & Hd & Ho); [exact Hc | simpl in *; lia |].
      exists (S k), st'. split.
      * simpl. rewrite Hq. unfold dispatchEvent. rewrite invoke_silent by exact He.
        exact Hd.
      * intros i. rewrite Ho. simpl. rewrite observed_app. simpl.
        rewrite app_nil_r. now rewrite (sees_silent _ _ _ _ He).
    + destruct (dispatchEvent_restrained 0 e
                  (record (Drained e) (set_frozenEventQ queue st)))
        as (st1 & Hst1 & (ps & Hq1 & Hps) & Ho1).
      simpl in Hq1.
      destruct (IHc st1) as (k & st' & Hd & Ho).
      { rewrite Hq1, loud_appended by exact Hps. fold (loud listeners queue) in Hc. lia. }
      exists (S k), st'. split.
      * cbn [drain]. rewrite Hq, Hst1. exact Hd.
      * intros i. rewrite Ho, Ho1, Hq1, flat_map_app, (sees_appended i ps Hps).
        simpl. rewrite observed_app. simpl. now rewrite !app_nil_r, <- app_assoc.
Qed.

End Restrained.

(** *** Frames that arrive while the gate is engaged *)

Lemma run_calls_app call cs1 cs2 st :
  run_calls call (cs1 ++ cs2) st =
  match run_calls call cs1 st with
  | Some st1 => run_calls call cs2 st1
  | None => None
  end.
Proof.
  revert st. induction cs1 as [ | c cs1 IH ]; intros st; simpl; [reflexivity|].
  destruct (call c st); [apply IH | reflexivity].
Qed.

Lemma messages_while_frozen listeners n frames st :
  frozen st = true ->
  exists st',
    run_calls (call listeners (S n)) (map CallMessage frames) st = Some st' /\
    frozen st' = true /\
    frozenEventQ st' = frozenEventQ st ++ envelopes frames /\
    same_deliveries st st'.
Proof.
  revert st. induction frames as [ | data frames IH ]; intros st Hf.
  - exists st. repeat split; trivial. simpl. now rewrite app_nil_r.
  - cbn [map run_calls call]. unfold ws_message, handleMessage.
    unfold envelopes. cbn [flat_map]. fold (envelopes frames).
    destruct (decode data) as [e|]; rewrite ?Hf.
    + destruct (IH (record (Pushed e)
                      (set_frozenEventQ (frozenEventQ st ++ [e]) st)) Hf)
        as (st' & Hrun & Hf' & Hq' & Hd' & Ho').
      exists st'. split; [exact Hrun|]. split; [exact Hf'|]. split.
      * rewrite Hq'. simpl. now rewrite <- app_assoc.
      * split.
        -- rewrite Hd'. simpl. rewrite dispatched_app. simpl. now rewrite app_nil_r.
        -- intros i. rewrite Ho'. simpl. rewrite observed_app. simpl.
           now rewrite app_nil_r.
    + destruct (IH (record (Reported ("Cannot parse message from M2: " ++ data)%string) st) Hf)
        as (st' & Hrun & Hf' & Hq' & Hd' & Ho').
      exists st'. split; [exact Hrun|]. split; [exact Hf'|]. split.
      * rewrite Hq'. reflexivity.
      * split.
        -- rewrite Hd'. simpl. rewrite dispatched_app. simpl. now rewrite app_nil_r.
        -- intros i. rewrite Ho'. simpl. rewrite observed_app. simpl.
           now rewrite app_nil_r.
Qed.

(** *** One call *)

Lemma call_engage listeners n st :
  call listeners (S n) (CallFreeze true) st
  = Some (record (Gate true) (set_frozen true st)).
Proof. reflexivity. Qed.

Lemma drain_done listeners call k st :
  frozenEventQ st = [] -> drain listeners call k st = Some st.
Proof. intros Hq. destruct k; simpl; now rewrite Hq. Qed.

Lemma drain_step listeners call k st e queue :
  frozenEventQ st = e :: queue ->
  drain listeners call (S k) st
  = match dispatchEvent listeners call e
            (record (Drained e) (set_frozenEventQ queue st)) with
    | Some st' => drain listeners call k st'
    | None => None
    end.
Proof. intros Hq. simpl. now rewrite Hq. Qed.

Lemma call_release listeners n st :
  call listeners (S n) (CallFreeze false) st
  = drain listeners (call listeners n) n (record (Gate false) (set_frozen false st)).
Proof. reflexivity. Qed.

(** What [handleMessage] does with a frame that decodes to [e]. *)
Lemma message_decoded listeners n data e st :
  decode data = Some e ->
  call listeners (S n) (CallMessage data) st
  = if frozen st
    then Some (record (Pushed e) (set_frozenEventQ (frozenEventQ st ++ [e]) st))
    else dispatchEvent listeners (call listeners n) e (record (Dispatched e) st).
Proof.
  intros He. cbn [call]. unfold ws_message, handleMessage. rewrite He.
  destruct (frozen st); [reflexivity|].
  now destruct (dispatchEvent _ _ _ _).
Qed.

(** What [handleMessage] does with a frame that does not decode. *)
Lemma message_malformed listeners n data st :
  decode data = None ->
  call listeners (S n) (CallMessage data) st
  = Some (record (Reported ("Cannot parse message from M2: " ++ data)%string) st).
Proof.
  intros Hd. cbn [call]. unfold ws_message, handleMessage. now rewrite Hd.
Qed.

(** *** Release *)

Lemma gate_after_engaged b new :
  In (Gate true) new -> ~ In (Gate false) new -> gate_after b new = true.
Proof.
  revert b. induction new as [ | x new IH ]; intros b Hin Hout; [destruct Hin|].
  assert (Hout' : ~ In (Gate false) new) by (intros H; apply Hout; now right).
  destruct Hin as [-> | Hin].
  - simpl. clear IH Hout. revert Hout'.
    induction new as [ | y new IH ]; intros Hout'; [reflexivity|].
    assert (~ In (Gate false) new) by (intros H; apply Hout'; now right).
    destruct y as [ | | | | [|] | | ]; simpl; try now apply IH.
    destruct Hout'. now left.
  - destruct x; simpl; now apply IH.
Qed.

(** Whenever [freeze(false)] returns, the queue is empty, and the loop has
    dispatched the queue it found followed by every event pushed in the
    meantime. *)
Lemma release_returns listeners n st st' :
  call listeners n (CallFreeze false) st = Some st' ->
  frozenEventQ st' = [] /\
  exists new,
    trace st' = trace st ++ Gate false :: new /\
    drained new = frozenEventQ st ++ pushed new /\
    frozen st' = gate_after false new.
Proof.
  destruct n as [ | n ]; [discriminate|]. cbn [call]. unfold freeze. simpl.
  intros Hd. pose proof (drain_empties _ _ _ _ _ Hd) as Hq. split; [exact Hq|].
  destruct (drain_advances listeners (call listeners n) (call_advances listeners n)
              _ _ _ Hd) as (new & Ht & Hc & Hf).
  exists new. simpl in Ht, Hc, Hf. rewrite Hq, app_nil_r in Hc.
  repeat split; [|now symmetry|exact Hf].
  rewrite Ht. now rewrite <- app_assoc.
Qed.

Lemma release_restrained listeners st :
  restrained listeners ->
  exists N st',
    (forall n, N <= n -> call listeners n (CallFreeze false) st = Some st') /\
    forall i, observed i (trace st')
              = observed i (trace st)
                ++ flat_map (sees i 0 listeners) (frozenEventQ st).
Proof.
  intros Hres.
  destruct (drain_restrained listeners Hres
              (record (Gate false) (set_frozen false st)))
    as (k & st' & Hd & Ho).
  exists (S (S k)), st'. split.
  - intros n Hn. destruct n as [ | n ]; [lia|]. cbn [call]. unfold freeze. simpl.
    eapply drain_mono; [|assert (Hk : k <= n) by lia; exact Hk|exact Hd].
    intros c s s'. apply call_mono. lia.
  - intros i. rewrite Ho. simpl. rewrite observed_app. simpl. now rewrite app_nil_r.
Qed.

(** *** Any sequence of calls, with restrained listeners *)

Lemma silent_not_listened listeners e l :
  silent listeners e = true -> In l listeners -> listens l e = false.
Proof.
  unfold silent. intros Hs Hl.
  rewrite forallb_forall in Hs. specialize (Hs l Hl).
  now destruct (listens l e).
Qed.

Lemma filter_silent listeners l ps :
  In l listeners -> forallb (silent listeners) ps = true ->
  filter (listens l) ps = [].
Proof.
  intros Hl. induction ps as [ | e ps IH ]; simpl; [reflexivity|].
  intros H. apply andb_true_iff in H as [He H].
  now rewrite (silent_not_listened _ _ _ He Hl), IH.
Qed.

Lemma envelopes_app frames1 frames2 :
  envelopes (frames1 ++ frames2) = envelopes frames1 ++ envelopes frames2.
Proof. unfold envelopes. apply flat_map_app. Qed.

Lemma frames_of_cons c cs : frames_of (c :: cs) = frames_of [c] ++ frames_of cs.
Proof. now destruct c. Qed.

(** One call of the application to a provider with restrained listeners:
    it returns, and what a listener has seen, followed by what waits for
    it in the queue, has grown by the envelope of the call, if it
    delivered one for this listener. *)
Lemma call_keeps_order listeners c st :
  restrained listeners -> settled st ->
  exists N st',
    (forall n, N <= n -> call listeners n c st = Some st') /\
    forall i l, nth_error listeners i = Some l ->
      observed i (trace st') ++ filter (listens l) (frozenEventQ st')
      = (observed i (trace st) ++ filter (listens l) (frozenEventQ st))
        ++ filter (listens l) (envelopes (frames_of [c])).
Proof.
  intros Hres Hset. destruct c as [ [|] | event data | data ].
  - exists 1, (record (Gate true) (set_frozen true st)). split.
    + intros [ | n ] Hn; [lia | apply call_engage].
    + intros i l _. simpl. rewrite observed_app. simpl. now rewrite !app_nil_r.
  - destruct (release_restrained listeners st Hres) as (N & st' & Hrel & Hobs).
    exists N, st'. split; [exact Hrel|].
    intros i l Hl.
    destruct (release_returns listeners N st st' (Hrel N (le_n N))) as [Hq _].
    rewrite Hq, Hobs, (sees_queue listeners i l _ Hl). simpl.
    now rewrite !app_nil_r.
  - exists 1, (send event data st). split.
    + intros [ | n ] Hn; [lia | reflexivity].
    + intros i l _. simpl. rewrite observed_app. simpl. now rewrite !app_nil_r.
  - unfold envelopes. cbn [frames_of flat_map].
    destruct (decode data) as [e|] eqn:Hd.
    + destruct (frozen st) eqn:Hf.
      * exists 1, (record (Pushed e) (set_frozenEventQ (frozenEventQ st ++ [e]) st)).
        split.
        -- intros [ | n ] Hn; [lia|]. now rewrite (message_decoded _ _ _ _ _ Hd), Hf.
        -- intros i l _. simpl. rewrite observed_app, filter_app. simpl.
           now rewrite !app_nil_r, app_assoc.
      * destruct (dispatchEvent_restrained listeners Hres 0 e
                    (record (Dispatched e) st))
          as (st' & Hst' & (ps & Hq & Hps) & Hobs).
        exists 2, st'. split.
        -- intros [ | [ | n ] ] Hn; try lia.
           rewrite (message_decoded _ _ _ _ _ Hd), Hf.
           unfold dispatchEvent in *.
           eapply invoke_mono; [|exact Hst'].
           intros c s s'. apply call_mono. lia.
        -- intros i l Hl. simpl in Hq. rewrite (Hset Hf) in *. simpl in Hq.
           rewrite Hobs, Hq, (filter_silent listeners l ps (nth_error_In _ _ Hl) Hps).
           rewrite sees_nth, Nat.sub_0_r, Hl. simpl.
           rewrite observed_app. simpl. rewrite !app_nil_r.
           now destruct (listens l e).
    + exists 1, (record (Reported ("Cannot parse message from M2: " ++ data)%string) st).
      split.
      * intros [ | n ] Hn; [lia | now apply message_malformed].
      * intros i l _. simpl. rewrite observed_app. simpl. now rewrite !app_nil_r.
Qed.

Lemma run_keeps_order listeners cs :
  restrained listeners ->
  forall st, settled st ->
  exists N st',
    (forall n, N <= n -> run listeners n cs st = Some st') /\
    settled st' /\
    forall i l, nth_error listeners i = Some l ->
      observed i (trace st') ++ filter (listens l) (frozenEventQ st')
      = (observed i (trace st) ++ filter (listens l) (frozenEventQ st))
        ++ filter (listens l) (envelopes (frames_of cs)).
Proof.
  intros Hres. induction cs as [ | c cs IH ]; intros st Hset.
  - exists 0, st. split; [reflexivity|]. split; [exact Hset|].
    intros i l _. simpl. now rewrite app_nil_r.
  - destruct (call_keeps_order listeners c st Hres Hset) as (N1 & st1 & Hc & Ho1).
    assert (Hset1 : settled st1)
      by (eapply call_settled; [exact Hset | apply (Hc N1 (le_n N1))]).
    destruct (IH st1 Hset1) as (N2 & st' & Hr & Hset' & Ho2).
    exists (Nat.max N1 N2), st'. split; [|split; [exact Hset'|]].
    + intros n Hn. unfold run in *. cbn [run_calls].
      rewrite (Hc n) by lia. apply Hr. lia.
    + intros i l Hl.
      rewrite (frames_of_cons c cs), envelopes_app, filter_app.
      rewrite (Ho2 i l Hl), (Ho1 i l Hl). now rewrite !app_assoc.
Qed.

(** *** A listener that feeds itself *)

Lemma waiting_record t x st : waiting t (record x st) = waiting t st.
Proof. reflexivity. Qed.

Section Echo.

Variable listeners : list Listener.
Variable l : Listener.
Variable data : string.
Variable echo : CustomEvent.
Hypothesis l_listed : In l listeners.
Hypothesis l_echoes : echoes l data.
Hypothesis data_decodes : decode data = Some echo.
Hypothesis echo_type : type echo = on l.

Section EchoStep.

Variable call : Call -> M2State -> option M2State.
Hypothesis keeps_waiting :
  forall c st st', waiting (on l) st = true -> call c st = Some st' ->
                   waiting (on l) st' = true.
Hypothesis engages :
  forall st st', call (CallFreeze true) st = Some st' -> frozen st' = true.
Hypothesis queues :
  forall st st', frozen st = true -> call (CallMessage data) st = Some st' ->
                 waiting (on l) st' = true.

Lemma run_calls_keeps_waiting cs st st' :
  waiting (on l) st = true -> run_calls call cs st = Some st' ->
  waiting (on l) st' = true.
Proof.
  revert st. induction cs as [ | c cs IH ]; intros st Hw; simpl.
  - now intros [= <-].
  - destruct (call c st) as [st1|] eqn:Hc; [|discriminate].
    apply IH. eapply keeps_waiting; eassumption.
Qed.

(** A dispatch that returns leaves an event for [l] in the queue, if one
    was there already or if the dispatched event is one. *)
Lemma invoke_leaves_waiting ls i e st st' :
  waiting (on l) st = true \/ (In l ls /\ listens l e = true) ->
  invoke call i ls e st = Some st' ->
  waiting (on l) st' = true.
Proof.
  revert i st. induction ls as [ | l0 ls IH ]; intros i st Hw; simpl.
  - intros [= <-]. destruct Hw as [Hw | [[] _]]. exact Hw.
  - fold (listens l0 e). destruct (listens l0 e) eqn:Hl0.
    + destruct (run_calls call _ _) as [st1|] eqn:Hr; [|discriminate].
      apply IH. destruct Hw as [Hw | [[-> | Hin] Hl]].
      * left. eapply run_calls_keeps_waiting; [|exact Hr]. exact Hw.
      * left. rewrite l_echoes in Hr. cbn [run_calls] in Hr.
        destruct (call (CallFreeze true) _) as [sa|] eqn:Ha; [|discriminate].
        destruct (call (CallMessage data) sa) as [sb|] eqn:Hb; [|discriminate].
        injection Hr as <-. eapply queues; [|exact Hb].
        eapply engages, Ha.
      * right. now split.
    + apply IH. destruct Hw as [Hw | [[-> | Hin] Hl]].
      * now left.
      * congruence.
      * right. now split.
Qed.

Lemma drain_does_not_end k st :
  waiting (on l) st = true -> drain listeners call k st = None.
Proof.
  revert st. induction k as [ | k IH ]; intros st Hw; simpl;
    unfold waiting in Hw; destruct (frozenEventQ st) as [ | e queue ] eqn:Hq;
    try discriminate Hw; [reflexivity|].
  destruct (dispatchEvent _ _ _ _) as [st1|] eqn:Hd; [|reflexivity].
  apply IH. unfold dispatchEvent in Hd.
  eapply invoke_leaves_waiting; [|exact Hd].
  simpl in Hw. apply orb_true_iff in Hw as [He | Hw].
  - right. split; [exact l_listed|]. unfold listens. exact He.
  - left. exact Hw.
Qed.

End EchoStep.

Lemma waiting_push t e st :
  waiting t st = true \/ String.eqb t (type e) = true ->
  waiting t (record (Pushed e) (set_frozenEventQ (frozenEventQ st ++ [e]) st))
  = true.
Proof.
  unfold waiting. simpl. rewrite existsb_app. simpl.
  intros [-> | ->]; [reflexivity | now rewrite !orb_true_r].
Qed.

Lemma call_engages_gate n st st' :
  call listeners n (CallFreeze true) st = Some st' -> frozen st' = true.
Proof. destruct n; [discriminate|]. now intros [= <-]. Qed.

Lemma call_queues_echo n st st' :
  frozen st = true -> call listeners n (CallMessage data) st = Some st' ->
  waiting (on l) st' = true.
Proof.
  destruct n as [ | n ]; [discriminate|]. intros Hf.
  rewrite (message_decoded _ _ _ _ _ data_decodes), Hf. intros [= <-].
  apply waiting_push. right. rewrite echo_type. apply String.eqb_refl.
Qed.

Lemma call_keeps_waiting n c st st' :
  waiting (on l) st = true -> call listeners n c st = Some st' ->
  waiting (on l) st' = true.
Proof.
  revert c st st'. induction n as [ | n IH ]; intros c st st' Hw;
    [discriminate|].
  destruct c as [ [|] | event payload | frame ]; cbn [call].
  - now intros [= <-].
  - unfold freeze. simpl.
    rewrite (drain_does_not_end (call listeners n) IH
               (call_engages_gate n) (call_queues_echo n)); [discriminate|].
    exact Hw.
  - now intros [= <-].
  - unfold ws_message, handleMessage.
    destruct (decode frame) as [e|].
    + destruct (frozen st).
      * intros [= <-]. apply waiting_push. now left.
      * destruct (dispatchEvent _ _ _ _) as [st1|] eqn:Hd; [|discriminate].
        intros [= <-]. unfold dispatchEvent in Hd.
        eapply (invoke_leaves_waiting (call listeners n) IH
                  (call_engages_gate n) (call_queues_echo n)); [|exact Hd].
        now left.
    + now intros [= <-].
Qed.

(** [freeze(false)] with an event for the echoing listener in the queue:
    no bound is large enough. *)
Lemma release_does_not_end n st :
  waiting (on l) st = true -> call listeners n (CallFreeze false) st = None.
Proof.
  intros Hw. destruct n as [ | n ]; [reflexivity|]. cbn [call]. unfold freeze. simpl.
  apply (drain_does_not_end (call listeners n) (call_keeps_waiting n)
           (call_engages_gate n) (call_queues_echo n)).
  exact Hw.
Qed.

End Echo.

(** *** Listeners that feed each other, in a descending order *)

Lemma feeds_refl rank bound st : feeds rank bound st st.
Proof.
  split; exists []; now rewrite app_nil_r.
Qed.

Lemma feeds_trans rank bound st1 st2 st3 :
  feeds rank bound st1 st2 -> feeds rank bound st2 st3 -> feeds rank bound st1 st3.
Proof.
  intros [(ps & Hq & Hps) (new & Ht & Hn)] [(ps' & Hq' & Hps') (new' & Ht' & Hn')].
  split.
  - exists (ps ++ ps'). split; [now rewrite Hq', Hq, app_assoc|].
    now rewrite forallb_app, Hps, Hps'.
  - exists (new ++ new'). split; [now rewrite Ht', Ht, app_assoc|].
    now rewrite forallb_app, Hn, Hn'.
Qed.

Lemma feeds_weaken rank bound bound' st st' :
  bound <= bound' -> feeds rank bound st st' -> feeds rank bound' st st'.
Proof.
  intros Hb [(ps & Hq & Hps) Hnew]. split; [|exact Hnew].
  exists ps. split; [exact Hq|].
  rewrite forallb_forall in *. intros e He. specialize (Hps e He).
  apply Nat.ltb_lt in Hps. apply Nat.ltb_lt. lia.
Qed.

Lemma feeds_record rank bound x st :
  holds x = true -> feeds rank bound st (record x st).
Proof.
  intros Hx. split.
  - exists []. simpl. now rewrite app_nil_r.
  - exists [x]. simpl. now rewrite Hx.
Qed.

Section Descending.

Variable rank : CustomEvent -> nat.
Variable listeners : list Listener.
Hypothesis listeners_descend : descending rank listeners.

Section Nested.

Variable n : nat.
Hypothesis dispatch_below :
  forall e st, rank e < n ->
  exists st', dispatchEvent listeners (call listeners n) e st = Some st' /\
              feeds rank (rank e) st st'.

(** A call that a listener makes for [e] returns; the envelopes it
    queues rank below [e]. *)
Lemma call_lower e c st :
  rank e <= n -> lower rank e c = true ->
  exists st', call listeners (S n) c st = Some st' /\ feeds rank (rank e) st st'.
Proof.
  intros He. destruct c as [ b | event data | data ]; simpl.
  - intros ->. unfold freeze. simpl. eexists. split; [reflexivity|].
    split; [exists []; simpl; now rewrite app_nil_r | now exists [Gate true]].
  - intros _. eexists. split; [reflexivity|]. now apply feeds_record.
  - unfold ws_message, handleMessage.
    destruct (decode data) as [e'|].
    + intros Hr. apply Nat.ltb_lt in Hr. destruct (frozen st).
      * eexists. split; [reflexivity|]. split.
        -- exists [e']. split; [reflexivity|]. simpl.
           rewrite andb_true_r. now apply Nat.ltb_lt.
        -- now exists [Pushed e'].
      * destruct (dispatch_below e' (record (Dispatched e') st)) as (st' & -> & Hf);
          [lia|].
        exists st'. split; [reflexivity|].
        eapply feeds_trans; [now apply (feeds_record rank (rank e) (Dispatched e'))|].
        eapply feeds_weaken; [|exact Hf]. lia.
    + intros _. eexists. split; [reflexivity|]. now apply feeds_record.
Qed.

Lemma run_calls_lower e cs st :
  rank e <= n -> forallb (lower rank e) cs = true ->
  exists st', run_calls (call listeners (S n)) cs st = Some st' /\
              feeds rank (rank e) st st'.
Proof.
  intros He. revert st. induction cs as [ | c cs IH ]; intros st Hcs.
  - exists st. split; [reflexivity | apply feeds_refl].
  - simpl in Hcs. apply andb_true_iff in Hcs as [Hc Hcs].
    destruct (call_lower e c st He Hc) as (st1 & Hst1 & Hf1).
    destruct (IH st1 Hcs) as (st' & Hst' & Hf').
    exists st'. split.
    + cbn [run_calls]. now rewrite Hst1.
    + eapply feeds_trans; eassumption.
Qed.

Lemma invoke_descending e ls :
  rank e <= n -> (forall l, In l ls -> In l listeners) ->
  forall j st,
  exists st', invoke (call listeners (S n)) j ls e st = Some st' /\
              feeds rank (rank e) st st'.
Proof.
  intros He. induction ls as [ | l ls IH ]; intros Hin j st.
  - exists st. split; [reflexivity | apply feeds_refl].
  - assert (Hls : forall l', In l' ls -> In l' listeners)
      by (intros; apply Hin; now right).
    cbn [invoke]. fold (listens l e).
    destruct (listens l e) eqn:Hl.
    + destruct (run_calls_lower e (callback l (trace st) e)
                  (record (Invoked j e) st) He) as (st1 & Hst1 & Hf1).
      { apply listeners_descend; [apply Hin; now left | exact Hl]. }
      destruct (IH Hls (S j) st1) as (st' & Hst' & Hf').
      exists st'. split; [now rewrite Hst1|].
      eapply feeds_trans; [now apply (feeds_record rank (rank e) (Invoked j e))|].
      eapply feeds_trans; eassumption.
    + apply IH. exact Hls.
Qed.

End Nested.

(** A dispatch returns, with a bound on nested calls above the rank of
    the event. *)
Lemma dispatchEvent_descending n e st :
  rank e < n ->
  exists st', dispatchEvent listeners (call listeners n) e st = Some st' /\
              feeds rank (rank e) st st'.
Proof.
  revert e st. induction n as [ | n IH ]; intros e st He; [lia|].
  apply invoke_descending; [exact IH | lia | trivial].
Qed.

(** The drain loop comes to an end when the events of the queue rank
    below [R]: by induction on [R], and, within a rank, on the events of
    the queue that the loop has yet to reach; what a dispatch appends
    behind them ranks below the event dispatched. *)
Lemma drain_descending R :
  forall st,
  forallb (fun e => rank e <? R) (frozenEventQ st) = true ->
  exists k st', drain listeners (call listeners R) k st = Some st' /\ held st st'.
Proof.
  induction R as [ | R IHR ]; intros st Hq.
  - destruct (frozenEventQ st) as [ | e queue ] eqn:Hst; [|discriminate].
    exists 0, st. split; [simpl; now rewrite Hst|].
    exists []. now rewrite app_nil_r.
  - assert (Hlow : forall st,
              forallb (fun e => rank e <? R) (frozenEventQ st) = true ->
              exists k st', drain listeners (call listeners (S R)) k st = Some st' /\
                            held st st').
    { intros s Hs. destruct (IHR s Hs) as (k & s' & Hd & Hh).
      exists k, s'. split; [|exact Hh].
      eapply drain_mono; [|apply le_n|exact Hd].
      intros c s1 s2. apply call_mono. lia. }
    enough (U : forall len q low st,
              frozenEventQ st = q ++ low -> length q <= len ->
              forallb (fun e => rank e <? S R) q = true ->
              forallb (fun e => rank e <? R) low = true ->
              exists k st', drain listeners (call listeners (S R)) k st = Some st' /\
                            held st st').
    { apply (U (length (frozenEventQ st)) (frozenEventQ st) [] st);
        [now rewrite app_nil_r | lia | exact Hq | reflexivity]. }
    clear st Hq.
    induction len as [ | len IHlen ]; intros q low st Hst Hlen Hq Hl;
      (destruct q as [ | e q ];
       [apply Hlow; simpl in Hst; now rewrite Hst|]); simpl in Hlen; [lia|].
    simpl in Hq. apply andb_true_iff in Hq as [He Hq]. apply Nat.ltb_lt in He.
    destruct (dispatchEvent_descending (S R) e
                (record (Drained e) (set_frozenEventQ (q ++ low) st)) He)
      as (st1 & Hd & (ps & Hq1 & Hps) & (new1 & Ht1 & Hn1)).
    simpl in Hq1, Ht1.
    destruct (IHlen q (low ++ ps) st1) as (k & st' & Hk & (new2 & Ht2 & Hn2)).
    + now rewrite Hq1, app_assoc.
    + lia.
    + exact Hq.
    + rewrite forallb_app, Hl. simpl.
      rewrite forallb_forall in *. intros x Hx. specialize (Hps x Hx).
      apply Nat.ltb_lt in Hps. apply Nat.ltb_lt. lia.
    + exists (S k), st'. split.
      * rewrite (drain_step _ _ _ _ e (q ++ low)) by exact Hst. now rewrite Hd.
      * exists (Drained e :: new1 ++ new2). split.
        -- rewrite Ht2, Ht1. now rewrite <- !app_assoc.
        -- simpl. now rewrite forallb_app, Hn1, Hn2.
Qed.

Lemma ranks_bounded (queue : list CustomEvent) :
  forallb (fun e => rank e <? S (list_max (map rank queue))) queue = true.
Proof.
  apply forallb_forall. intros e He. apply Nat.ltb_lt.
  assert (H : rank e <= list_max (map rank queue)); [|lia].
  pose proof (proj1 (list_max_le (map rank queue) (list_max (map rank queue)))
                (le_n _)) as Hall.
  rewrite Forall_forall in Hall. apply Hall. now apply in_map.
Qed.

(** [freeze(false)] returns, with any bound that is large enough, and
    nothing has released the gate in the meantime. *)
Lemma release_descending st :
  exists N st',
    (forall n, N <= n -> call listeners n (CallFreeze false) st = Some st') /\
    exists new, trace st' = trace st ++ Gate false :: new /\
                forallb holds new = true.
Proof.
  destruct (drain_descending (S (list_max (map rank (frozenEventQ st))))
              (record (Gate false) (set_frozen false st)))
    as (k & st' & Hd & (new & Ht & Hn)).
  { apply ranks_bounded. }
  exists (S (Nat.max k (S (list_max (map rank (frozenEventQ st)))))), st'. split.
  - intros n Hn'. destruct n as [ | n ]; [lia|]. rewrite call_release.
    eapply drain_mono; [| |exact Hd]; [|lia].
    intros c s s'. apply call_mono. lia.
  - exists new. split; [|exact Hn]. rewrite Ht. simpl. now rewrite <- app_assoc.
Qed.

End Descending.

(** Restrained listeners are a case of descending ones: what they feed
    has no listener. *)
Lemma restrained_descending listeners :
  restrained listeners -> descending (loudness listeners) listeners.
Proof.
  intros Hres l tr e Hin Hl.
  specialize (Hres l tr e Hin).
  rewrite forallb_forall in *. intros c Hc. specialize (Hres c Hc).
  assert (He : loudness listeners e = 1).
  { unfold loudness. destruct (silent listeners e) eqn:Hs; [|reflexivity].
    rewrite (silent_not_listened _ _ _ Hs Hin) in Hl. discriminate. }
  destruct c as [ b | event data | data ]; simpl in *; trivial.
  destruct (decode data) as [e'|]; [|reflexivity].
  rewrite He. unfold loudness. now rewrite Hres.
Qed.

Lemma holds_no_release new : forallb holds new = true -> ~ In (Gate false) new.
Proof.
  intros H Hin. rewrite forallb_forall in H. now specialize (H _ Hin).
Qed.

(** *** The claims on the freeze gate *)

(** C1. Frames that arrive while the gate is engaged are decoded and
    queued, none is dispatched; the release that follows hands the queued
    envelopes to the listeners, and every listener sees exactly the
    envelopes of its event name, each once, in the order of arrival.  The
    listeners may engage the gate again while they run; they do not
    release it and do not feed each other. *)
Theorem frozen_envelopes_delivered_in_order listeners frames st :
  restrained listeners ->
  frozenEventQ st = [] ->
  exists N mid st',
    (forall n, N <= n ->
       run listeners n (CallFreeze true :: map CallMessage frames) st = Some mid /\
       run listeners n
         (CallFreeze true :: map CallMessage frames ++ [CallFreeze false]) st
       = Some st') /\
    frozenEventQ mid = envelopes frames /\
    same_deliveries st mid /\
    frozenEventQ st' = [] /\
    forall i l, nth_error listeners i = Some l ->
      observed i (trace st')
      = observed i (trace st) ++ filter (listens l) (envelopes frames).
Proof.
  intros Hres Hq.
  destruct (messages_while_frozen listeners 0 frames
              (record (Gate true) (set_frozen true st)) eq_refl)
    as (mid & Hmid & Hf & Hqmid & Hd & Ho).
  simpl in Hqmid, Hd, Ho. rewrite Hq in Hqmid. simpl in Hqmid.
  destruct (release_restrained listeners mid Hres) as (N & st' & Hrel & Hobs).
  exists (S N), mid, st'.
  assert (Hrun : forall n, S N <= n ->
            run listeners n (CallFreeze true :: map CallMessage frames) st = Some mid).
  { intros n Hn. destruct n as [ | n ]; [lia|].
    unfold run. cbn [run_calls]. rewrite call_engage.
    eapply run_calls_mono; [|exact Hmid].
    intros c s s'. apply call_mono. lia. }
  split; [|split; [exact Hqmid|split; [|split]]].
  - intros n Hn. split; [now apply Hrun|].
    specialize (Hrun n Hn). unfold run in *.
    change (CallFreeze true :: map CallMessage frames ++ [CallFreeze false])
      with ((CallFreeze true :: map CallMessage frames) ++ [CallFreeze false]).
    rewrite run_calls_app, Hrun. cbn [run_calls].
    rewrite Hrel by lia. reflexivity.
  - split.
    + rewrite Hd, dispatched_app. simpl. now rewrite app_nil_r.
    + intros i. rewrite Ho, observed_app. simpl. now rewrite app_nil_r.
  - destruct (release_returns listeners (S N) mid st') as [Hempty _]; [|exact Hempty].
    apply Hrel. lia.
  - intros i l Hl. rewrite Hobs, Ho, observed_app, Hqmid. simpl.
    rewrite app_nil_r. f_equal. now apply sees_queue.
Qed.

Lemma dashboard_restrained : restrained dashboard.
Proof.
  intros l tr e [<- | [<- | []]]; reflexivity.
Qed.

Lemma frozen_envelopes_delivered_in_order_witness :
  restrained dashboard /\
  frozenEventQ M2Provider = [] /\
  exists N mid st',
    (forall n, N <= n ->
       run dashboard n
         (CallFreeze true
          :: map CallMessage [status_frame; malformed_frame; pong_frame; status_frame])
         M2Provider = Some mid /\
       run dashboard n
         (CallFreeze true
          :: map CallMessage [status_frame; malformed_frame; pong_frame; status_frame]
             ++ [CallFreeze false])
         M2Provider = Some st') /\
    frozenEventQ mid
    = envelopes [status_frame; malformed_frame; pong_frame; status_frame] /\
    same_deliveries M2Provider mid /\
    frozenEventQ st' = [] /\
    forall i l, nth_error dashboard i = Some l ->
      observed i (trace st')
      = observed i (trace M2Provider)
        ++ filter (listens l)
             (envelopes [status_frame; malformed_frame; pong_frame; status_frame]).
Proof.
  split; [exact dashboard_restrained|]. split; [reflexivity|].
  apply (frozen_envelopes_delivered_in_order dashboard
           [status_frame; malformed_frame; pong_frame; status_frame] M2Provider).
  - exact dashboard_restrained.
  - reflexivity.
Defined.


Lemma feeder_descending : descending pong_first feeder.
Proof.
  intros l tr e [<- | [<- | []]] Hl; [reflexivity|].
  unfold listens in Hl. cbn [on] in Hl. rewrite String.eqb_sym in Hl.
  assert (He : pong_first e = 1) by (unfold pong_first; now rewrite Hl).
  assert (Hd : decode status_frame
               = Some {| type := "status";
                         detail := JArray [JBool true; JNumber "12"; JNumber "3"] |})
    by (vm_compute; reflexivity).
  cbn [callback forallb]. unfold lower. rewrite Hd, He. reflexivity.
Qed.



(** C6. Between two calls of the application, engaging the gate a second
    time changes neither the gate, nor the queue, nor what was dispatched,
    reported or seen by a listener; and releasing a gate that is flowing
    returns at once with the same gate, the same empty queue, nothing
    dispatched and nothing reported. *)
Theorem freeze_idempotent listeners n st :
  reachable listeners st ->
  (exists st1 st2,
     call listeners (S n) (CallFreeze true) st = Some st1 /\
     call listeners (S n) (CallFreeze true) st1 = Some st2 /\
     same_gate st1 st2 /\ same_deliveries st1 st2 /\
     reported (trace st2) = reported (trace st1)) /\
  (frozen st = false ->
   exists st',
     call listeners (S n) (CallFreeze false) st = Some st' /\
     same_gate st st' /\ same_deliveries st st' /\
     reported (trace st') = reported (trace st)).
Proof.
  intros Hreach. split.
  - do 2 eexists. split; [apply call_engage|]. split; [apply call_engage|].
    repeat split; simpl.
    + rewrite !dispatched_app. simpl. now rewrite app_nil_r.
    + intros i. rewrite !observed_app. simpl. now rewrite app_nil_r.
    + rewrite !reported_app. simpl. now rewrite app_nil_r.
  - intros Hf. pose proof (reachable_settled _ _ Hreach Hf) as Hq.
    exists (record (Gate false) (set_frozen false st)). split.
    + cbn [call]. unfold freeze. simpl. destruct n; simpl; now rewrite Hq.
    + repeat split; simpl.
      * now rewrite Hf.
      * rewrite dispatched_app. simpl. now rewrite app_nil_r.
      * intros i. rewrite observed_app. simpl. now rewrite app_nil_r.
      * rewrite reported_app. simpl. now rewrite app_nil_r.
Qed.

Lemma freeze_idempotent_witness :
  reachable dashboard M2Provider /\
  (exists st1 st2,
     call dashboard 1 (CallFreeze true) M2Provider = Some st1 /\
     call dashboard 1 (CallFreeze true) st1 = Some st2 /\
     same_gate st1 st2 /\ same_deliveries st1 st2 /\
     reported (trace st2) = reported (trace st1)) /\
  (frozen M2Provider = false ->
   exists st',
     call dashboard 1 (CallFreeze false) M2Provider = Some st' /\
     same_gate M2Provider st' /\ same_deliveries M2Provider st' /\
     reported (trace st') = reported (trace M2Provider)).
Proof.
  split; [apply reachable_init|].
  apply (freeze_idempotent dashboard 0 M2Provider). apply reachable_init.
Defined.

(** *** The claims on malformed frames *)

Lemma record_same_deliveries x st :
  (forall e, x <> Dispatched e) -> (forall e, x <> Drained e) ->
  (forall i e, x <> Invoked i e) ->
  same_deliveries st (record x st).
Proof.
  intros H1 H2 H3. split; simpl.
  - rewrite dispatched_app. simpl.
    destruct x; try now rewrite app_nil_r.
    + now destruct (H1 e).
    + now destruct (H2 e).
  - intros i. rewrite observed_app. simpl.
    destruct x; try now rewrite app_nil_r. now destruct (H3 listener e).
Qed.

Lemma sent_record_reported error st :
  sent (trace (record (Reported error) st)) = sent (trace st).
Proof.
  simpl. induction (trace st) as [ | x tr IH ]; [reflexivity|].
  simpl. destruct x; now rewrite IH.
Qed.

Lemma sees_listens listeners i l e :
  nth_error listeners i = Some l ->
  sees i 0 listeners e = filter (listens l) [e].
Proof.
  intros Hl. rewrite sees_nth, Nat.sub_0_r, Hl. simpl.
  now destruct (listens l e).
Qed.

(** A frame that decodes, delivered to a provider with restrained
    listeners: it is queued behind an engaged gate; with the gate flowing
    it is dispatched, and each listener registered for it is called with
    it, once. *)
Lemma message_delivered listeners data e st :
  restrained listeners -> decode data = Some e ->
  exists N st',
    (forall n, N <= n -> call listeners n (CallMessage data) st = Some st') /\
    (frozen st = true ->
     st' = record (Pushed e) (set_frozenEventQ (frozenEventQ st ++ [e]) st)) /\
    (frozen st = false ->
     (exists rest, trace st' = trace st ++ Dispatched e :: rest) /\
     forall i, observed i (trace st')
               = observed i (trace st) ++ sees i 0 listeners e).
Proof.
  intros Hres Hd. destruct (frozen st) eqn:Hf.
  - exists 1, (record (Pushed e) (set_frozenEventQ (frozenEventQ st ++ [e]) st)).
    split; [|split; [reflexivity|discriminate]].
    intros [ | n ] Hn; [lia|]. now rewrite (message_decoded _ _ _ _ _ Hd), Hf.
  - destruct (dispatchEvent_restrained listeners Hres 0 e (record (Dispatched e) st))
      as (st' & Hst' & _ & Hobs).
    exists 2, st'. split; [|split; [discriminate|]].
    + intros [ | [ | n ] ] Hn; try lia.
      rewrite (message_decoded _ _ _ _ _ Hd), Hf.
      unfold dispatchEvent in *.
      eapply invoke_mono; [|exact Hst'].
      intros c s s'. apply call_mono. lia.
    + intros _. split.
      * destruct (dispatchEvent_advances listeners (call listeners 1)
                    (call_advances listeners 1) _ _ _ Hst') as (new & Ht & _).
        exists new. rewrite Ht. simpl. now rewrite <- app_assoc.
      * intros i. rewrite Hobs. simpl. rewrite observed_app. simpl.
        now rewrite app_nil_r.
Qed.



(** C8, as the spec states it, fails: a frame whose [event] is the empty
    string decodes. *)
Lemma decoded_event_name_may_be_empty :
  ~ (forall data e, decode data = Some e -> type e <> EmptyString).
Proof.
  intros H.
  apply (H empty_name_frame {| type := ""; detail := JNumber "7" |});
    reflexivity.
Qed.

(** Its envelope, with the empty event name, is dispatched. *)
Lemma empty_event_name_is_dispatched :
  decode empty_name_frame = Some {| type := ""; detail := JNumber "7" |} /\
  call dashboard 1 (CallMessage empty_name_frame) M2Provider
  = Some (record (Dispatched {| type := ""; detail := JNumber "7" |}) M2Provider).
Proof. split; reflexivity. Qed.

(** What the [CustomEvent] constructor makes of some [event] properties. *)
Lemma event_names :
  option_map type (decode (q "{'event':1.0}")) = Some "1"%string /\
  option_map type (decode (q "{'event':1e2}")) = Some "100"%string /\
  option_map type (decode (q "{'event':-0.5e+3}")) = Some "-500"%string /\
  option_map type (decode (q "{'event':1e21}")) = Some "1e+21"%string /\
  option_map type (decode (q "{'event':0.0000001}")) = Some "1e-7"%string /\
  option_map type (decode (q "{'event':9007199254740993}"))
  = Some "9007199254740992"%string /\
  option_map type (decode (q "{'event':1e400}")) = Some "Infinity"%string /\
  option_map type (decode (q "{'event':null}")) = Some "null"%string /\
  option_map type (decode (q "{'event':[1,[null,true],'a']}"))
  = Some "1,,true,a"%string /\
  option_map type (decode (q "{'event':{'a':1}}")) = Some "[object Object]"%string /\
  option_map type (decode (q "{'data':1}")) = Some "undefined"%string /\
  option_map type (decode (q "[1,2]")) = Some "undefined"%string /\
  decode (q "{'event':{'toString':1}}") = None /\
  decode (q "{'event':[0,{'toString':null}]}") = None /\
  decode "null" = None /\
  decode (q "{'event':'\ud83d\ude00'}")
  = decode (q "{'event':'" ++ String (chr 240) (String (chr 159)
                (String (chr 152) (String (chr 128) (q "'}")))))%string /\
  option_map type (decode (q "{'event':'\ud83d\ude00'}"))
  = Some (String (chr 240) (String (chr 159)
            (String (chr 152) (String (chr 128) EmptyString)))).
Proof. vm_compute. repeat split. Qed.

(** C8, amended.  A frame that decodes gives one envelope, which is queued
    when the gate is engaged and dispatched otherwise.  Its event name is
    a string, and is not checked: every string, the empty one included, is
    the event name of the envelope of some frame.  When a frame does not
    decode no envelope is produced: nothing is queued, nothing is
    dispatched and no listener is called. *)
Theorem decode_outcome listeners n st :
  (forall data e, decode data = Some e ->
     call listeners (S n) (CallMessage data) st
     = if frozen st
       then Some (record (Pushed e)
                    (set_frozenEventQ (frozenEventQ st ++ [e]) st))
       else dispatchEvent listeners (call listeners n) e
              (record (Dispatched e) st)) /\
  (forall name,
   exists frame, decode frame = Some {| type := name; detail := JNull |}) /\
  (forall data, decode data = None ->
   exists st',
     call listeners (S n) (CallMessage data) st = Some st' /\
     frozenEventQ st' = frozenEventQ st /\
     pushed (trace st') = pushed (trace st) /\
     same_deliveries st st').
Proof.
  split; [|split].
  - intros data e Hd. now apply message_decoded.
  - intros name. exists (encode name None). apply payload_left_out_reads_null.
  - intros data Hd. eexists. split; [now apply message_malformed|].
    split; [reflexivity|]. split.
    + simpl. rewrite pushed_app. simpl. now rewrite app_nil_r.
    + apply record_same_deliveries; discriminate.
Qed.

Lemma decode_outcome_witness :
  decode empty_name_frame = Some {| type := ""; detail := JNumber "7" |} /\
  call dashboard 1 (CallMessage empty_name_frame) backlog
  = Some (record (Pushed {| type := ""; detail := JNumber "7" |})
            (set_frozenEventQ
               (frozenEventQ backlog ++ [ {| type := ""; detail := JNumber "7" |} ])
               backlog)) /\
  (exists frame, decode frame = Some {| type := ""; detail := JNull |}) /\
  decode request_frame = None /\
  exists st',
    call dashboard 1 (CallMessage request_frame) backlog = Some st' /\
    frozenEventQ st' = frozenEventQ backlog /\
    pushed (trace st') = pushed (trace backlog) /\
    same_deliveries backlog st'.
Proof.
  split; [vm_compute; reflexivity|].
  split; [apply (proj1 (decode_outcome dashboard 0 backlog) empty_name_frame);
          vm_compute; reflexivity|].
  split; [apply (proj1 (proj2 (decode_outcome dashboard 0 backlog)) EmptyString)|].
  split; [vm_compute; reflexivity|].
  apply (proj2 (proj2 (decode_outcome dashboard 0 backlog)) request_frame).
  vm_compute. reflexivity.
Defined.

(** ** The heartbeat *)

Module PingPongFacts.
Import PingPong.
Local Open Scope Z_scope.

(** A tick that comes no later than twice the period after the previous
    one sends a ping, whether or not one is already out. *)
Lemma tick_regular now h :
  now - previousCheck h <= 2 * frequency h ->
  tick now h
  = set_previousCheck now (emit (Ping (encode "ping" None)) (set_at now h)).
Proof.
  intros Hgap. unfold tick.
  replace (now - previousCheck h >? 2 * frequency h) with false
    by (symmetry; rewrite Z.gtb_ltb; apply Z.ltb_ge; lia).
  now rewrite andb_false_r.
Qed.

Lemma steps_regular ticks h :
  regular (frequency h) (previousCheck h) ticks ->
  exists pings,
    effects (steps (map Tick ticks) h) = effects h ++ pings /\
    forallb is_ping pings = true /\
    length pings = length ticks /\
    connected (steps (map Tick ticks) h) = connected h.
Proof.
  revert h. induction ticks as [ | now ticks IH ]; intros h Hreg.
  - exists []. simpl. now rewrite app_nil_r.
  - destruct Hreg as [Hgap Hreg]. cbn [map steps fold_left step].
    rewrite (tick_regular now h Hgap).
    destruct (IH (set_previousCheck now
                    (emit (Ping (encode "ping" None)) (set_at now h))))
      as (pings & He & Hp & Hl & Hc); [exact Hreg|].
    exists (Ping (encode "ping" None) :: pings).
    unfold steps in *. rewrite He, Hc. simpl. rewrite <- app_assoc.
    repeat split; trivial. now rewrite Hl.
Qed.

(** C3, on the code.  Under regular ticking and with no pong, every tick
    sends a new ping and forgets the one before: whatever the timeout,
    the monitor never declares the channel disconnected and never calls
    [ws.reconnect()]. *)
Theorem regular_ticks_never_time_out P T t0 ticks :
  regular P t0 ticks ->
  forallb is_ping (effects (steps (map Tick ticks) (mounted P T t0))) = true /\
  length (effects (steps (map Tick ticks) (mounted P T t0))) = length ticks /\
  connected (steps (map Tick ticks) (mounted P T t0)) = false.
Proof.
  intros Hreg.
  destruct (steps_regular ticks (mounted P T t0) Hreg)
    as (pings & He & Hp & Hl & Hc).
  rewrite He, Hc. simpl. repeat split; assumption.
Qed.

Lemma regular_ticks_never_time_out_witness :
  regular 1000 0 [1000; 2000; 3000; 4000; 5000; 6000] /\
  forallb is_ping
    (effects (steps (map Tick [1000; 2000; 3000; 4000; 5000; 6000])
                (mounted 1000 3000 0))) = true /\
  length (effects (steps (map Tick [1000; 2000; 3000; 4000; 5000; 6000])
                     (mounted 1000 3000 0))) = length [1000; 2000; 3000; 4000; 5000; 6000] /\
  connected (steps (map Tick [1000; 2000; 3000; 4000; 5000; 6000])
               (mounted 1000 3000 0)) = false.
Proof.
  split; [simpl; lia|].
  apply (regular_ticks_never_time_out 1000 3000 0
           [1000; 2000; 3000; 4000; 5000; 6000]).
  simpl. lia.
Defined.

(** C2, on the code.  On a tick with a ping out and more than twice the
    period since the previous tick, no ping is sent: if the ping is at
    least [timeout] old the monitor declares the channel disconnected and
    calls [ws.reconnect()], otherwise it does nothing. *)
Theorem tick_after_gap now h :
  at_ h <> 0 ->
  now - previousCheck h > 2 * frequency h ->
  (now - at_ h >= timeout h ->
   effects (tick now h) = effects h ++ [SetConnected false; Reconnect] /\
   connected (tick now h) = false /\ at_ (tick now h) = 0) /\
  (now - at_ h < timeout h ->
   effects (tick now h) = effects h /\ at_ (tick now h) = at_ h).
Proof.
  intros Hat Hgap. unfold tick.
  replace (at_ h =? 0) with false by (symmetry; now apply Z.eqb_neq).
  replace (now - previousCheck h >? 2 * frequency h) with true
    by (symmetry; rewrite Z.gtb_ltb; apply Z.ltb_lt; lia).
  cbn [negb andb]. split; intros Hold.
  - replace (now - at_ h >=? timeout h) with true
      by (symmetry; rewrite Z.geb_leb; apply Z.leb_le; lia).
    simpl. rewrite <- app_assoc. repeat split.
  - replace (now - at_ h >=? timeout h) with false
      by (symmetry; rewrite Z.geb_leb; apply Z.leb_gt; lia).
    split; reflexivity.
Qed.

Lemma tick_after_gap_witness :
  at_ (tick 1000 (mounted 1000 3000 0)) <> 0 /\
  6000 - previousCheck (tick 1000 (mounted 1000 3000 0))
  > 2 * frequency (tick 1000 (mounted 1000 3000 0)) /\
  (6000 - at_ (tick 1000 (mounted 1000 3000 0))
   >= timeout (tick 1000 (mounted 1000 3000 0)) ->
   effects (tick 6000 (tick 1000 (mounted 1000 3000 0)))
   = effects (tick 1000 (mounted 1000 3000 0)) ++ [SetConnected false; Reconnect] /\
   connected (tick 6000 (tick 1000 (mounted 1000 3000 0))) = false /\
   at_ (tick 6000 (tick 1000 (mounted 1000 3000 0))) = 0) /\
  (6000 - at_ (tick 1000 (mounted 1000 3000 0))
   < timeout (tick 1000 (mounted 1000 3000 0)) ->
   effects (tick 6000 (tick 1000 (mounted 1000 3000 0)))
   = effects (tick 1000 (mounted 1000 3000 0)) /\
   at_ (tick 6000 (tick 1000 (mounted 1000 3000 0)))
   = at_ (tick 1000 (mounted 1000 3000 0))).
Proof.
  split; [simpl; lia|]. split; [simpl; lia|].
  apply (tick_after_gap 6000 (tick 1000 (mounted 1000 3000 0))); simpl; lia.
Defined.

(** A pong that comes [delay] after the ping marks the channel connected
    and records [delay] as the latency. *)
Lemma pong_records_latency P T t0 now delay :
  connected (handlePong (now + delay) (tick now (mounted P T t0))) = true /\
  latency (handlePong (now + delay) (tick now (mounted P T t0))) = delay.
Proof.
  unfold tick. cbn. split; [reflexivity | lia].
Qed.

(** C9, as the spec states it, fails: the hook never rejects its
    arguments. *)
Lemma non_positive_configuration_is_accepted :
  ~ (forall frequency timeout now,
       frequency <= 0 \/ timeout <= 0 ->
       exists error, usePingPongState frequency timeout now = Throw error).
Proof.
  intros H. destruct (H 0 (-3000) 0) as [error Herr]; [lia|]. discriminate Herr.
Qed.

(** C9, amended.  The hook checks neither argument: for every frequency
    and timeout, positive or not, it returns normally, keeps the values
    as they are, and its first tick sends a ping. *)
Theorem configuration_is_not_checked frequency timeout now :
  exists h,
    usePingPongState frequency timeout now = Return h /\
    PingPong.frequency h = frequency /\
    PingPong.timeout h = timeout /\
    forall now', effects (tick now' h) = [Ping (encode "ping" None)].
Proof.
  exists (mounted frequency timeout now). repeat split.
Qed.

End PingPongFacts.

(** ** The status tracker *)

Module StatusFacts.
Import Status.

(** The effect ran at the first render, and no later render runs it
    again: the registered [handleStatus] keeps reading the
    [ignoreOnlineStatus] of the first render, which is [false]. *)
Lemma closure_is_stale ws inputs h :
  effect_deps h = Some ws ->
  closure_ignoreOnlineStatus h = false ->
  effect_deps (fold_left (step ws) inputs h) = Some ws /\
  closure_ignoreOnlineStatus (fold_left (step ws) inputs h) = false.
Proof.
  revert h. induction inputs as [ | i inputs IH ]; intros h Hdeps Hclo; simpl.
  - now split.
  - apply IH; destruct i; unfold step, useStatusState; simpl;
      rewrite ?Hclo; simpl; rewrite Hdeps, Nat.eqb_refl; simpl;
      rewrite ?Hclo; trivial.
Qed.

Lemma session_closure ws inputs :
  effect_deps (session ws inputs) = Some ws /\
  closure_ignoreOnlineStatus (session ws inputs) = false.
Proof. unfold session. now apply closure_is_stale. Qed.

(** Every status event sets [online], [latency] and [rate] to what it
    carries, whatever the keys pressed before. *)
Lemma status_event_sets_all ws inputs online latency rate :
  Status.online (session ws (inputs ++ [StatusEvent online latency rate])) = online /\
  Status.latency (session ws (inputs ++ [StatusEvent online latency rate])) = latency /\
  Status.rate (session ws (inputs ++ [StatusEvent online latency rate])) = rate.
Proof.
  destruct (session_closure ws inputs) as [Hdeps Hclo].
  unfold session in *. rewrite fold_left_app.
  set (h := fold_left (step ws) inputs (useStatusState ws unmounted)) in *.
  cbn [fold_left]. unfold step, handleStatus, useStatusState.
  rewrite Hclo. cbn. rewrite Hdeps, Nat.eqb_refl. repeat split.
Qed.

(** C5, on the code.  After the force-offline key, and whatever happens
    in between, a status event that carries [online = true] sets the
    tracked [online] to [true]; [latency] and [rate] take the values of
    the event. *)
Theorem status_event_undoes_force_offline ws between latency rate :
  Status.online
    (session ws (ForceOfflineKey :: between
                 ++ [StatusEvent (JBool true) latency rate])) = JBool true /\
  Status.latency
    (session ws (ForceOfflineKey :: between
                 ++ [StatusEvent (JBool true) latency rate])) = latency /\
  Status.rate
    (session ws (ForceOfflineKey :: between
                 ++ [StatusEvent (JBool true) latency rate])) = rate.
Proof.
  apply (status_event_sets_all ws (ForceOfflineKey :: between)).
Qed.

(** Right after the key the hook does show [online = false]. *)
Lemma force_offline_shows_offline ws inputs :
  Status.online (session ws (inputs ++ [ForceOfflineKey])) = JBool false /\
  Status.ignoreOnlineStatus (session ws (inputs ++ [ForceOfflineKey])) = true.
Proof.
  destruct (session_closure ws inputs) as [Hdeps Hclo].
  unfold session in *. rewrite fold_left_app.
  set (h := fold_left (step ws) inputs (useStatusState ws unmounted)) in *.
  cbn [fold_left]. unfold step, forceOffline, useStatusState.
  cbn. rewrite Hdeps, Nat.eqb_refl. now split.
Qed.

(** Were the effect run again after the key, as a dependency on
    [ignoreOnlineStatus] would have it, the event would leave [online]
    alone. *)
Lemma fresh_closure_honours_override ws ws' h online latency rate :
  effect_deps h = Some ws -> ws' <> ws ->
  Status.online
    (handleStatus online latency rate (useStatusState ws' (forceOffline h)))
  = JBool false.
Proof.
  intros Hdeps Hws. unfold useStatusState, forceOffline. cbn.
  rewrite Hdeps. apply Nat.eqb_neq in Hws. rewrite Hws. reflexivity.
Qed.

End StatusFacts.

(* ================================================================== *)
(** * Part III: properties beyond the claims                           *)
(* ================================================================== *)

(** ** The provider, over any sequence of calls *)

(** X1. Whatever the application does with a provider whose listeners are
    restrained (engage, release, send and deliver frames in any order),
    every call returns, and at the end what each listener has seen,
    followed by the envelopes of its event name that wait in the queue, is
    exactly the envelopes of its event name that arrived, in the order of
    arrival: none is lost, repeated or overtaken.  When the gate is left
    flowing the queue is empty, and the listener has seen them all. *)
Theorem arrival_order_is_kept listeners cs :
  restrained listeners ->
  exists N st',
    (forall n, N <= n -> run listeners n cs M2Provider = Some st') /\
    (frozen st' = false -> frozenEventQ st' = []) /\
    forall i l, nth_error listeners i = Some l ->
      observed i (trace st') ++ filter (listens l) (frozenEventQ st')
      = filter (listens l) (envelopes (frames_of cs)).
Proof.
  intros Hres.
  destruct (run_keeps_order listeners cs Hres M2Provider) as (N & st' & Hr & Hset & Ho).
  { intros _. reflexivity. }
  exists N, st'. split; [exact Hr|]. split; [exact Hset|].
  intros i l Hl. now rewrite (Ho i l Hl).
Qed.

Lemma arrival_order_is_kept_witness :
  restrained dashboard /\
  exists N st',
    (forall n, N <= n ->
       run dashboard n
         [CallMessage status_frame; CallFreeze true; CallMessage pong_frame;
          CallMessage malformed_frame; CallMessage status_frame;
          CallFreeze false; CallSend "ping" None; CallMessage status_frame]
         M2Provider = Some st') /\
    (frozen st' = false -> frozenEventQ st' = []) /\
    forall i l, nth_error dashboard i = Some l ->
      observed i (trace st') ++ filter (listens l) (frozenEventQ st')
      = filter (listens l)
          (envelopes
             (frames_of
                [CallMessage status_frame; CallFreeze true; CallMessage pong_frame;
                 CallMessage malformed_frame; CallMessage status_frame;
                 CallFreeze false; CallSend "ping" None; CallMessage status_frame])).
Proof.
  split; [exact dashboard_restrained|].
  apply (arrival_order_is_kept dashboard). exact dashboard_restrained.
Defined.

(** X2. With any listeners at all, whenever a sequence of calls of the
    application has returned, a flowing gate has an empty queue: an
    envelope is only ever left in the queue while the gate is engaged. *)
Theorem flowing_gate_has_empty_queue listeners n cs st' :
  run listeners n cs M2Provider = Some st' ->
  frozen st' = false -> frozenEventQ st' = [].
Proof.
  intros Hrun. eapply run_calls_settled; [| |exact Hrun].
  - intros c s s'. apply call_settled.
  - intros _. reflexivity.
Qed.

Lemma flowing_gate_has_empty_queue_witness :
  exists st',
    run dashboard 6
      [CallFreeze true; CallMessage status_frame; CallMessage pong_frame;
       CallFreeze false; CallFreeze false] M2Provider = Some st' /\
    (frozen st' = false -> frozenEventQ st' = []).
Proof.
  eexists. split; [vm_compute; reflexivity|].
  apply (flowing_gate_has_empty_queue dashboard 6
           [CallFreeze true; CallMessage status_frame; CallMessage pong_frame;
            CallFreeze false; CallFreeze false]).
  vm_compute. reflexivity.
Defined.

(** X3. With any listeners at all, whenever a sequence of calls of the
    application has returned, the envelopes pushed on the queue so far are
    those the drain loops have dispatched, in the same order, followed by
    the queue as it stands: the queue is first in, first out, and an
    envelope leaves it once, through a dispatch. *)
Theorem queue_is_first_in_first_out listeners n cs st' :
  run listeners n cs M2Provider = Some st' ->
  pushed (trace st') = drained (trace st') ++ frozenEventQ st' /\
  frozen st' = gate_after false (trace st').
Proof.
  intros Hrun.
  destruct (run_calls_advances (call listeners n) (call_advances listeners n)
              cs M2Provider st' Hrun) as (new & Ht & Hq & Hf).
  simpl in Ht, Hq, Hf. subst new. now split.
Qed.

Lemma queue_is_first_in_first_out_witness :
  exists st',
    run dashboard 6
      [CallFreeze true; CallMessage pong_frame; CallMessage status_frame;
       CallFreeze false; CallMessage status_frame] M2Provider = Some st' /\
    pushed (trace st') = drained (trace st') ++ frozenEventQ st' /\
    frozen st' = gate_after false (trace st').
Proof.
  eexists. split; [vm_compute; reflexivity|].
  apply (queue_is_first_in_first_out dashboard 6
           [CallFreeze true; CallMessage pong_frame; CallMessage status_frame;
            CallFreeze false; CallMessage status_frame]).
  vm_compute. reflexivity.
Defined.

(** ** A drain that does not end *)

(** X4. The loop of [freeze(false)] runs for as long as the queue is not
    empty.  If one of the listeners, each time it is called, engages the
    gate and has the socket deliver a frame of the event name it is
    registered for, and an event of that name waits in the queue, then
    whatever the other listeners do [freeze(false)] never returns: no
    bound on the iterations is enough. *)
Theorem release_never_returns listeners l data echo st :
  In l listeners -> echoes l data ->
  decode data = Some echo -> type echo = on l ->
  waiting (on l) st = true ->
  forall n, call listeners n (CallFreeze false) st = None.
Proof.
  intros Hin Hech Hdec Hty Hw n.
  now apply (release_does_not_end listeners l data echo).
Qed.

Lemma release_never_returns_witness :
  In pong_echo (pong_echo :: dashboard) /\ echoes pong_echo pong_frame /\
  decode pong_frame = Some {| type := "pong"; detail := JNull |} /\
  type {| type := "pong"; detail := JNull |} = on pong_echo /\
  waiting (on pong_echo) backlog = true /\
  forall n, call (pong_echo :: dashboard) n (CallFreeze false) backlog = None.
Proof.
  split; [now left|]. split; [intros tr e; reflexivity|].
  split; [reflexivity|]. split; [reflexivity|]. split; [reflexivity|].
  apply (release_never_returns (pong_echo :: dashboard) pong_echo pong_frame
           {| type := "pong"; detail := JNull |} backlog);
    try reflexivity; [now left | intros tr e; reflexivity].
Defined.

(** ** A listener that releases the gate *)

(** X5. The order of arrival is not kept when a listener releases the gate
    from within a dispatch.  With two listeners for the same event name,
    the first of which calls [freeze(false)] each time it is called, a
    release hands the queued events to the first listener in the order of
    the queue and to the second in the reverse order. *)
Theorem release_within_dispatch_reverses t queue :
  forallb (fun e => String.eqb t (type e)) queue = true ->
  forall n st,
    frozenEventQ st = queue -> length queue < n ->
    exists st',
      call (relay t) n (CallFreeze false) st = Some st' /\
      frozenEventQ st' = [] /\
      observed 0 (trace st') = observed 0 (trace st) ++ queue /\
      observed 1 (trace st') = observed 1 (trace st) ++ rev queue.
Proof.
  induction queue as [ | e queue IH ]; intros Ht n st Hq Hn;
    (destruct n as [ | n ]; [simpl in Hn; lia|]); rewrite call_release.
  - exists (record (Gate false) (set_frozen false st)). split.
    + now apply drain_done.
    + split; [exact Hq|]. simpl. rewrite !observed_app. simpl.
      now rewrite !app_nil_r.
  - simpl in Ht, Hn. apply andb_true_iff in Ht as [He Ht].
    destruct n as [ | k ]; [lia|].
    destruct (IH Ht (S k)
                (record (Invoked 0 e)
                   (record (Drained e)
                      (set_frozenEventQ queue
                         (record (Gate false) (set_frozen false st))))))
      as (st1 & Hc & Hq1 & Ho0 & Ho1); [reflexivity | lia |].
    exists (record (Invoked 1 e) st1). split.
    + rewrite (drain_step _ _ _ _ e queue) by exact Hq.
      unfold dispatchEvent, relay in *. cbn [invoke on callback].
      rewrite He. cbn [run_calls]. rewrite Hc. cbn [run_calls invoke].
      now apply drain_done.
    + split; [exact Hq1|]. simpl. rewrite !observed_app, Ho0, Ho1. simpl.
      rewrite !observed_app. simpl. rewrite !app_nil_r.
      split; now rewrite <- app_assoc.
Qed.

Lemma release_within_dispatch_reverses_witness :
  forallb (fun e => String.eqb "status" (type e)) (frozenEventQ status_backlog)
  = true /\
  frozenEventQ status_backlog = frozenEventQ status_backlog /\
  length (frozenEventQ status_backlog) < 4 /\
  exists st',
    call (relay "status") 4 (CallFreeze false) status_backlog = Some st' /\
    frozenEventQ st' = [] /\
    observed 0 (trace st')
    = observed 0 (trace status_backlog) ++ frozenEventQ status_backlog /\
    observed 1 (trace st')
    = observed 1 (trace status_backlog) ++ rev (frozenEventQ status_backlog).
Proof.
  split; [reflexivity|]. split; [reflexivity|]. split; [simpl; lia|].
  apply (release_within_dispatch_reverses "status"
           (frozenEventQ status_backlog));
    [reflexivity | reflexivity | simpl; lia].
Defined.

(** ** What goes out *)

(** X6. [send] hands one frame to the socket, whatever the state of the
    gate, and touches neither the gate nor the queue; read back by
    [handleMessage], the frame gives the event name and the payload that
    were sent, and [null] for a payload that was left out, as in
    [send('ping')]. *)
Theorem sent_frame_decodes listeners n event data st :
  sendable data = true ->
  exists frame,
    call listeners (S n) (CallSend event data) st = Some (record (Sent frame) st) /\
    decode frame
    = Some {| type := event;
              detail := match data with Some d => d | None => JNull end |}.
Proof.
  intros Hdata. exists (encode event data). split; [reflexivity|].
  unfold decode, encode.
  destruct data as [d|]; simpl in Hdata;
    (rewrite JSON_parse_stringify by (simpl; now rewrite ?Hdata));
    reflexivity.
Qed.

Lemma sent_frame_decodes_witness :
  sendable None = true /\
  exists frame,
    call dashboard 1 (CallSend "ping" None) backlog
    = Some (record (Sent frame) backlog) /\
    decode frame = Some {| type := "ping"; detail := JNull |}.
Proof.
  split; [reflexivity|].
  apply (sent_frame_decodes dashboard 0 "ping" None backlog). reflexivity.
Defined.

(** ** More of the heartbeat *)

Module PingPongMore.
Import PingPong.
Local Open Scope Z_scope.

Lemma steps_app inputs1 inputs2 h :
  steps (inputs1 ++ inputs2) h = steps inputs2 (steps inputs1 h).
Proof. apply fold_left_app. Qed.

(** The arguments of the hook and the scope of [handlePong] stay as the
    first render made them. *)
Lemma step_keeps_configuration h i :
  frequency (step h i) = frequency h /\
  timeout (step h i) = timeout h /\
  closure_connected (step h i) = closure_connected h.
Proof.
  destruct i as [now | now]; unfold step, tick, handlePong.
  - destruct (negb (at_ h =? 0) && (now - previousCheck h >? 2 * frequency h));
      [destruct (now - at_ h >=? timeout h)|]; repeat split.
  - destruct (negb (closure_connected h)); repeat split.
Qed.

Lemma steps_keep_configuration inputs h :
  frequency (steps inputs h) = frequency h /\
  timeout (steps inputs h) = timeout h /\
  closure_connected (steps inputs h) = closure_connected h.
Proof.
  revert h. induction inputs as [ | i inputs IH ]; intros h; [repeat split|].
  cbn [steps fold_left]. fold (steps inputs (step h i)).
  destruct (IH (step h i)) as (-> & -> & ->). apply step_keeps_configuration.
Qed.

(** X8. Whatever happened before, when a tick sends a ping (no ping is
    out, or the tick is no later than twice the period after the previous
    one) and the pong arrives at time [t], the hook is connected, no ping
    is out any more, and the latency is the time between the tick and the
    pong. *)
Theorem pong_after_ping P T t0 inputs now t :
  at_ (steps inputs (mounted P T t0)) = 0 \/
  now - previousCheck (steps inputs (mounted P T t0)) <= 2 * P ->
  latency (handlePong t (tick now (steps inputs (mounted P T t0)))) = t - now /\
  connected (handlePong t (tick now (steps inputs (mounted P T t0)))) = true /\
  at_ (handlePong t (tick now (steps inputs (mounted P T t0)))) = 0.
Proof.
  destruct (steps_keep_configuration inputs (mounted P T t0)) as (Hf & _ & Hc).
  simpl in Hf, Hc. set (h := steps inputs (mounted P T t0)) in *.
  intros Hping.
  assert (Htick : tick now h
                  = set_previousCheck now
                      (emit (Ping (encode "ping" None)) (set_at now h))).
  { unfold tick. destruct Hping as [Hat | Hgap].
    - now rewrite Hat.
    - replace (now - previousCheck h >? 2 * frequency h) with false
        by (symmetry; rewrite Z.gtb_ltb; apply Z.ltb_ge; lia).
      now rewrite andb_false_r. }
  rewrite Htick. unfold handlePong. cbn. rewrite Hc. cbn. repeat split.
Qed.

Lemma pong_after_ping_witness :
  (at_ (steps [Tick 1000; Pong 1040] (mounted 1000 3000 0)) = 0 \/
   2000 - previousCheck (steps [Tick 1000; Pong 1040] (mounted 1000 3000 0))
   <= 2 * 1000) /\
  latency (handlePong 2150
             (tick 2000 (steps [Tick 1000; Pong 1040] (mounted 1000 3000 0))))
  = 2150 - 2000 /\
  connected (handlePong 2150
               (tick 2000 (steps [Tick 1000; Pong 1040] (mounted 1000 3000 0))))
  = true /\
  at_ (handlePong 2150
         (tick 2000 (steps [Tick 1000; Pong 1040] (mounted 1000 3000 0)))) = 0.
Proof.
  split; [left; reflexivity|].
  apply (pong_after_ping 1000 3000 0 [Tick 1000; Pong 1040] 2000 2150).
  left. reflexivity.
Defined.

(** X9. A pong clears the time of the ping; a second pong in a row finds
    no ping out and records the reading of the clock itself as the
    latency. *)
Theorem second_pong_records_the_clock h t1 t2 :
  at_ (handlePong t1 h) = 0 /\
  latency (handlePong t2 (handlePong t1 h)) = t2.
Proof.
  unfold handlePong.
  destruct (closure_connected h) eqn:Hc; cbn; rewrite Hc; cbn;
    (split; [reflexivity | lia]).
Qed.

Lemma steps_regular_inputs inputs h :
  closure_connected h = false ->
  regular_inputs (frequency h) (previousCheck h) inputs ->
  forallb quiet_effect (effects h) = true ->
  forallb quiet_effect (effects (steps inputs h)) = true /\
  connected (steps inputs h) = connected h || existsb is_pong inputs.
Proof.
  revert h. induction inputs as [ | i inputs IH ]; intros h Hclo Hreg Hq.
  - simpl. now rewrite orb_false_r.
  - cbn [steps fold_left]. fold (steps inputs (step h i)).
    destruct i as [now | t].
    + destruct Hreg as [Hgap Hreg]. cbn [step].
      rewrite (PingPongFacts.tick_regular now h Hgap).
      destruct (IH (set_previousCheck now
                      (emit (Ping (encode "ping" None)) (set_at now h))))
        as [Hq' Hc']; trivial.
      { simpl. rewrite forallb_app, Hq. reflexivity. }
      split; [exact Hq' | exact Hc'].
    + cbn [step regular_inputs] in *. unfold handlePong. rewrite Hclo.
      cbn [negb].
      destruct (IH (set_at 0 (setLatency (t - at_ (setConnected true h))
                                 (setConnected true h))))
        as [Hq' Hc']; trivial.
      { simpl. rewrite <- app_assoc, forallb_app, Hq. reflexivity. }
      split; [exact Hq'|]. rewrite Hc'. simpl. now rewrite orb_true_r.
Qed.

(** X10. As long as no tick comes later than twice the period after the
    tick before it, the hook never declares the channel disconnected and
    never calls [ws.reconnect()], whether pongs arrive or not and whatever
    the timeout; it is connected exactly when a pong has arrived. *)
Theorem regular_inputs_never_disconnect P T t0 inputs :
  regular_inputs P t0 inputs ->
  forallb (fun x => negb (gives_up x))
    (effects (steps inputs (mounted P T t0))) = true /\
  connected (steps inputs (mounted P T t0)) = existsb is_pong inputs.
Proof.
  intros Hreg.
  destruct (steps_regular_inputs inputs (mounted P T t0)) as [Hq Hc];
    trivial.
  split; [exact Hq | exact Hc].
Qed.

Lemma regular_inputs_never_disconnect_witness :
  regular_inputs 1000 0 [Tick 1000; Tick 2000; Pong 2030; Tick 3000; Tick 5000] /\
  forallb (fun x => negb (gives_up x))
    (effects (steps [Tick 1000; Tick 2000; Pong 2030; Tick 3000; Tick 5000]
                (mounted 1000 3000 0))) = true /\
  connected (steps [Tick 1000; Tick 2000; Pong 2030; Tick 3000; Tick 5000]
               (mounted 1000 3000 0))
  = existsb is_pong [Tick 1000; Tick 2000; Pong 2030; Tick 3000; Tick 5000].
Proof.
  split; [simpl; lia|].
  apply (regular_inputs_never_disconnect 1000 3000 0
           [Tick 1000; Tick 2000; Pong 2030; Tick 3000; Tick 5000]).
  simpl. lia.
Defined.

Lemma reconnects_app xs ys : (reconnects (xs ++ ys) = reconnects xs + reconnects ys)%nat.
Proof.
  induction xs as [ | x xs IH ]; simpl; [reflexivity|].
  destruct x; simpl; now rewrite IH.
Qed.

Lemma pings_app xs ys : (pings (xs ++ ys) = pings xs + pings ys)%nat.
Proof.
  induction xs as [ | x xs IH ]; simpl; [reflexivity|].
  destruct x; simpl; now rewrite IH.
Qed.

(** Each reconnect uses up a ping that was out. *)
Lemma step_budget h i :
  (reconnects (effects h) + outstanding h <= pings (effects h))%nat ->
  (reconnects (effects (step h i)) + outstanding (step h i)
   <= pings (effects (step h i)))%nat.
Proof.
  unfold outstanding. intros Hb.
  destruct i as [now | t]; unfold step, tick, handlePong.
  - destruct (at_ h =? 0) eqn:Hat; cbn [negb andb].
    + cbn. rewrite pings_app, reconnects_app. simpl.
      destruct (now =? 0); lia.
    + destruct (now - previousCheck h >? 2 * frequency h).
      * destruct (now - at_ h >=? timeout h).
        -- cbn. rewrite <- app_assoc, pings_app, reconnects_app. simpl. lia.
        -- cbn. rewrite Hat. lia.
      * cbn. rewrite pings_app, reconnects_app. simpl.
        destruct (now =? 0); lia.
  - destruct (negb (closure_connected h)); cbn;
      rewrite <- ?app_assoc, pings_app, reconnects_app; simpl;
      destruct (at_ h =? 0); lia.
Qed.

Lemma ping_out_app armed xs ys :
  ping_out armed (xs ++ ys) = ping_out (ping_out armed xs) ys.
Proof.
  revert armed. induction xs as [ | x xs IH ]; intros armed; [reflexivity|].
  destruct x; simpl; apply IH.
Qed.

Lemma reconnects_after_pings_app armed xs ys :
  reconnects_after_pings armed (xs ++ ys)
  = reconnects_after_pings armed xs
    && reconnects_after_pings (ping_out armed xs) ys.
Proof.
  revert armed. induction xs as [ | x xs IH ]; intros armed; [reflexivity|].
  destruct x; simpl; rewrite ?IH; try reflexivity.
  now rewrite andb_assoc.
Qed.

(** A reconnect is made only while a ping is out, and a ping that is out
    has left since the last reconnect. *)
Lemma step_ping_out h i :
  reconnects_after_pings false (effects h) = true ->
  (at_ h <> 0 -> ping_out false (effects h) = true) ->
  reconnects_after_pings false (effects (step h i)) = true /\
  (at_ (step h i) <> 0 -> ping_out false (effects (step h i)) = true).
Proof.
  intros Hr Hp.
  destruct i as [now | t]; unfold step, tick, handlePong.
  - destruct (at_ h =? 0) eqn:Hat; cbn [negb andb].
    + cbn. rewrite reconnects_after_pings_app, ping_out_app, Hr. simpl.
      now split.
    + apply Z.eqb_neq in Hat. specialize (Hp Hat).
      destruct (now - previousCheck h >? 2 * frequency h).
      * destruct (now - at_ h >=? timeout h).
        -- cbn. rewrite <- app_assoc, reconnects_after_pings_app, ping_out_app, Hr, Hp.
           simpl. split; [reflexivity|]. intros H. now destruct H.
        -- cbn. now split.
      * cbn. rewrite reconnects_after_pings_app, ping_out_app, Hr. simpl.
        now split.
  - destruct (negb (closure_connected h)); cbn;
      rewrite <- ?app_assoc, reconnects_after_pings_app, Hr; simpl;
      (split; [reflexivity|]); intros H; now destruct H.
Qed.

Lemma steps_ping_out inputs h :
  reconnects_after_pings false (effects h) = true ->
  (at_ h <> 0 -> ping_out false (effects h) = true) ->
  reconnects_after_pings false (effects (steps inputs h)) = true.
Proof.
  revert h. induction inputs as [ | i inputs IH ]; intros h Hr Hp; [exact Hr|].
  cbn [steps fold_left].
  destruct (step_ping_out h i Hr Hp) as [Hr' Hp']. now apply IH.
Qed.

Lemma ping_before_reconnect armed before after :
  reconnects_after_pings armed (before ++ Reconnect :: after) = true ->
  (armed = true \/ exists frame, In (Ping frame) before) /\
  reconnects_after_pings false after = true.
Proof.
  revert armed. induction before as [ | x before IH ]; intros armed; simpl.
  - intros H. apply andb_true_iff in H as [-> H]. split; [now left | exact H].
  - destruct x as [frame | | b | ms]; intros H.
    + destruct (IH _ H) as [_ Hafter]. split; [|exact Hafter].
      right. exists frame. now left.
    + apply andb_true_iff in H as [_ H].
      destruct (IH _ H) as [[Habs | (frame & Hin)] Hafter]; [discriminate|].
      split; [|exact Hafter]. right. exists frame. now right.
    + destruct (IH _ H) as [[Ha | (frame & Hin)] Hafter];
        (split; [|exact Hafter]); [now left | right; exists frame; now right].
    + destruct (IH _ H) as [[Ha | (frame & Hin)] Hafter];
        (split; [|exact Hafter]); [now left | right; exists frame; now right].
Qed.

(** X11. Over any run of the hook, with or without gaps and pongs, a ping
    has left before the first call of [ws.reconnect()], and another one
    between any two calls of it; so that [ws.reconnect()] has never been
    called more often than pings were sent. *)
Theorem each_reconnect_follows_a_ping P T t0 inputs :
  (reconnects (effects (steps inputs (mounted P T t0)))
   <= pings (effects (steps inputs (mounted P T t0))))%nat /\
  (forall before after,
     effects (steps inputs (mounted P T t0)) = before ++ Reconnect :: after ->
     exists frame, In (Ping frame) before) /\
  (forall before between after,
     effects (steps inputs (mounted P T t0))
     = before ++ Reconnect :: between ++ Reconnect :: after ->
     exists frame, In (Ping frame) between).
Proof.
  split.
  - enough (H : forall h,
               (reconnects (effects h) + outstanding h <= pings (effects h))%nat ->
               (reconnects (effects (steps inputs h)) + outstanding (steps inputs h)
                <= pings (effects (steps inputs h)))%nat).
    { assert (H0 : (reconnects (effects (mounted P T t0))
                    + outstanding (mounted P T t0)
                    <= pings (effects (mounted P T t0)))%nat) by (cbn; lia).
      specialize (H (mounted P T t0) H0). lia. }
    induction inputs as [ | i inputs IH ]; intros h Hb; [exact Hb|].
    cbn [steps fold_left]. apply IH. now apply step_budget.
  - assert (Hscan : reconnects_after_pings false
                      (effects (steps inputs (mounted P T t0))) = true).
    { apply steps_ping_out; [reflexivity|]. intros H. now destruct H. }
    split.
    + intros before after Hsplit. rewrite Hsplit in Hscan.
      destruct (ping_before_reconnect _ _ _ Hscan) as [[Habs | Hin] _];
        [discriminate | exact Hin].
    + intros before between after Hsplit. rewrite Hsplit in Hscan.
      destruct (ping_before_reconnect _ _ _ Hscan) as [_ Hrest].
      destruct (ping_before_reconnect _ _ _ Hrest) as [[Habs | Hin] _];
        [discriminate | exact Hin].
Qed.

Lemma each_reconnect_follows_a_ping_witness :
  effects (steps [Tick 1000; Tick 5000; Tick 6000; Tick 10000] (mounted 1000 3000 0))
  = [Ping (encode "ping" None); SetConnected false]
    ++ Reconnect :: [Ping (encode "ping" None); SetConnected false]
    ++ Reconnect :: [] /\
  exists frame, In (Ping frame) [Ping (encode "ping" None); SetConnected false].
Proof.
  split; [vm_compute; reflexivity|].
  apply (proj2 (proj2 (each_reconnect_follows_a_ping 1000 3000 0
                         [Tick 1000; Tick 5000; Tick 6000; Tick 10000]))
           [Ping (encode "ping" None); SetConnected false]
           [Ping (encode "ping" None); SetConnected false] []).
  vm_compute. reflexivity.
Defined.

End PingPongMore.

(** ** More of the status tracker *)

Module StatusMore.
Import Status.

Lemma step_keeps_override ws h i :
  ignoreOnlineStatus h = true -> ignoreOnlineStatus (step ws h i) = true.
Proof.
  intros Hh. unfold step, useStatusState.
  destruct i; unfold forceOnline, forceOffline, handleStatus;
    destruct (closure_ignoreOnlineStatus h); cbn;
    destruct (effect_deps h) as [ws'|]; try destruct (Nat.eqb ws ws');
    cbn; trivial.
Qed.

Lemma steps_keep_override ws inputs h :
  ignoreOnlineStatus h = true ->
  ignoreOnlineStatus (fold_left (step ws) inputs h) = true.
Proof.
  revert h. induction inputs as [ | i inputs IH ]; intros h Hh; [exact Hh|].
  simpl. apply IH. now apply step_keeps_override.
Qed.

(** X12. A force key sets [online] to the forced value at once and leaves
    [latency] and [rate] as they were. *)
Theorem force_key_sets_online_only ws inputs :
  (online (session ws (inputs ++ [ForceOnlineKey])) = JBool true /\
   latency (session ws (inputs ++ [ForceOnlineKey])) = latency (session ws inputs) /\
   rate (session ws (inputs ++ [ForceOnlineKey])) = rate (session ws inputs)) /\
  (online (session ws (inputs ++ [ForceOfflineKey])) = JBool false /\
   latency (session ws (inputs ++ [ForceOfflineKey])) = latency (session ws inputs) /\
   rate (session ws (inputs ++ [ForceOfflineKey])) = rate (session ws inputs)).
Proof.
  destruct (StatusFacts.session_closure ws inputs) as [Hdeps Hclo].
  unfold session in *. rewrite !fold_left_app.
  set (h := fold_left (step ws) inputs (useStatusState ws unmounted)) in *.
  cbn [fold_left]. unfold step, forceOnline, forceOffline, useStatusState.
  cbn. rewrite Hdeps, Nat.eqb_refl. repeat split.
Qed.

(** X13. Once a force key was pressed, [ignoreOnlineStatus] is true for
    the rest of the session: nothing clears it. *)
Theorem override_flag_is_never_cleared ws before after :
  ignoreOnlineStatus (session ws (before ++ ForceOnlineKey :: after)) = true /\
  ignoreOnlineStatus (session ws (before ++ ForceOfflineKey :: after)) = true.
Proof.
  destruct (StatusFacts.session_closure ws before) as [Hdeps Hclo].
  unfold session in *. rewrite !fold_left_app.
  set (h := fold_left (step ws) before (useStatusState ws unmounted)) in *.
  cbn [fold_left]. split; apply steps_keep_override;
    unfold step, forceOnline, forceOffline, useStatusState;
    cbn; now rewrite Hdeps, Nat.eqb_refl.
Qed.

(** X14. The listener reads the override only through the effect's
    closure, and the effect depends on the socket alone: when a render
    finds another socket in the context the effect runs again, and from
    then on a status event leaves a forced [online] alone, while
    [latency] and [rate] still follow the event. *)
Theorem new_socket_refreshes_the_closure ws ws' inputs online latency rate :
  ws' <> ws ->
  Status.online
    (step ws' (useStatusState ws' (session ws (inputs ++ [ForceOfflineKey])))
       (StatusEvent online latency rate)) = JBool false /\
  Status.latency
    (step ws' (useStatusState ws' (session ws (inputs ++ [ForceOfflineKey])))
       (StatusEvent online latency rate)) = latency /\
  Status.rate
    (step ws' (useStatusState ws' (session ws (inputs ++ [ForceOfflineKey])))
       (StatusEvent online latency rate)) = rate.
Proof.
  intros Hws.
  destruct (StatusFacts.session_closure ws inputs) as [Hdeps Hclo].
  unfold session in *. rewrite fold_left_app.
  set (h := fold_left (step ws) inputs (useStatusState ws unmounted)) in *.
  cbn [fold_left]. apply Nat.eqb_neq in Hws.
  unfold step, forceOffline, handleStatus, useStatusState.
  cbn. rewrite Hdeps, Nat.eqb_refl. cbn. rewrite Hdeps, Hws. cbn.
  rewrite Nat.eqb_refl. repeat split.
Qed.

Lemma new_socket_refreshes_the_closure_witness :
  2 <> 1 /\
  Status.online
    (step 2 (useStatusState 2 (session 1 ([] ++ [ForceOfflineKey])))
       (StatusEvent (JBool true) (JNumber "42") (JNumber "7"))) = JBool false /\
  Status.latency
    (step 2 (useStatusState 2 (session 1 ([] ++ [ForceOfflineKey])))
       (StatusEvent (JBool true) (JNumber "42") (JNumber "7"))) = JNumber "42" /\
  Status.rate
    (step 2 (useStatusState 2 (session 1 ([] ++ [ForceOfflineKey])))
       (StatusEvent (JBool true) (JNumber "42") (JNumber "7"))) = JNumber "7".
Proof.
  split; [lia|].
  apply (new_socket_refreshes_the_closure 1 2 [] (JBool true) (JNumber "42") (JNumber "7")).
  lia.
Defined.

Lemma force_keys_keep_readings ws keys h :
  forallb is_force_key keys = true ->
  effect_deps h = Some ws ->
  latency (fold_left (step ws) keys h) = latency h /\
  rate (fold_left (step ws) keys h) = rate h.
Proof.
  revert h. induction keys as [ | key keys IH ]; intros h Hkeys Hdeps;
    [now split|].
  simpl in Hkeys. apply andb_true_iff in Hkeys as [Hkey Hkeys].
  cbn [fold_left].
  assert (Hstep : effect_deps (step ws h key) = Some ws /\
                  latency (step ws h key) = latency h /\
                  rate (step ws h key) = rate h).
  { destruct key; try discriminate Hkey;
      unfold step, forceOnline, forceOffline, useStatusState; cbn;
      rewrite Hdeps, Nat.eqb_refl; repeat split; exact Hdeps. }
  destruct Hstep as (Hd & Hl & Hr).
  destruct (IH (step ws h key) Hkeys Hd) as [-> ->]. now split.
Qed.

(** X15. [latency] and [rate] are those of the last status event,
    whatever keys were pressed before it and after it. *)
Theorem readings_follow_last_status_event ws before online latency rate keys :
  forallb is_force_key keys = true ->
  Status.latency
    (session ws (before ++ StatusEvent online latency rate :: keys)) = latency /\
  Status.rate
    (session ws (before ++ StatusEvent online latency rate :: keys)) = rate.
Proof.
  intros Hkeys.
  destruct (StatusFacts.status_event_sets_all ws before online latency rate)
    as (_ & Hl & Hr).
  destruct (StatusFacts.session_closure ws
              (before ++ [StatusEvent online latency rate])) as [Hdeps _].
  replace (before ++ StatusEvent online latency rate :: keys)
    with ((before ++ [StatusEvent online latency rate]) ++ keys)
    by now rewrite <- app_assoc.
  unfold session in *. rewrite fold_left_app.
  destruct (force_keys_keep_readings ws keys _ Hkeys Hdeps) as [-> ->].
  now split.
Qed.

Lemma readings_follow_last_status_event_witness :
  forallb is_force_key [ForceOfflineKey; ForceOnlineKey] = true /\
  Status.latency
    (session 1 ([ForceOnlineKey]
                ++ StatusEvent (JBool false) (JNumber "42") (JNumber "7")
                   :: [ForceOfflineKey; ForceOnlineKey])) = JNumber "42" /\
  Status.rate
    (session 1 ([ForceOnlineKey]
                ++ StatusEvent (JBool false) (JNumber "42") (JNumber "7")
                   :: [ForceOfflineKey; ForceOnlineKey])) = JNumber "7".
Proof.
  split; [reflexivity|].
  apply (readings_follow_last_status_event 1 [ForceOnlineKey] (JBool false)
           (JNumber "42") (JNumber "7") [ForceOfflineKey; ForceOnlineKey]).
  reflexivity.
Defined.

End StatusMore.
